(** * Smooth displacement: a shallow embedding of [displacement.py]

    The script deforms a point cloud: every vertex of the deformed object is
    moved to a blend of the positions the anchors' handles would give it, the
    blend weights coming from a cell test and a smoothstep falloff.

    Numbers.  The script computes with Python and mathutils floats.  The
    embedding computes with the real numbers of the Standard Library: every
    arithmetic operation is exact, comparisons are the order of [R], and the
    square root of [Vector.normalized] is [sqrt].  Rounding is therefore not
    part of this model; everything else (control flow, the order of the
    tests, the guards, the exceptions Python raises) follows the script line
    by line.

    Library calls.  [mathutils] and [scipy] are not part of the script; the
    few operations used are modelled after their documented behaviour
    ([Vector.normalized] of the zero vector is the zero vector,
    [Matrix.inverted] raises [ValueError] on a singular matrix, a 4x4 matrix
    applied to a 3D vector extends it with [w = 1] and drops the fourth
    coordinate of the product).  The triangulation is an argument of the
    model. *)

From Stdlib Require Import Reals Lra Psatz List Arith Lia Bool.
Import ListNotations.

Local Open Scope R_scope.

(** ** Python exceptions as an error monad *)

Inductive exn : Type :=
| ZeroDivisionError   (* float division by zero *)
| IndexError          (* list index out of range *)
| ValueError          (* Matrix.inverted() of a singular matrix *)
| QhullError.         (* raised by scipy.spatial.Delaunay *)

Inductive result (A : Type) : Type :=
| Ok (a : A)
| Raise (e : exn).

Arguments Ok {A} a.
Arguments Raise {A} e.

Definition bind {A B : Type} (m : result A) (k : A -> result B) : result B :=
  match m with
  | Ok a => k a
  | Raise e => Raise e
  end.

Notation "x <- m ;; k" := (bind m (fun x => k))
  (at level 61, m at next level, right associativity).

(** [l[k]] for a Python list and a non-negative index. *)
Definition getitem {A : Type} (l : list A) (k : nat) : result A :=
  match nth_error l k with
  | Some a => Ok a
  | None => Raise IndexError
  end.

(** [[f(x) for x in l]], stopping at the first exception. *)
Fixpoint mapM {A B : Type} (f : A -> result B) (l : list A) : result (list B) :=
  match l with
  | [] => Ok []
  | x :: xs =>
      y <- f x ;;
      ys <- mapM f xs ;;
      Ok (y :: ys)
  end.

(** Python's true division [a / b] on floats. *)
Definition truediv (a b : R) : result R :=
  if Req_dec_T b 0 then Raise ZeroDivisionError else Ok (a / b).

(** ** [smooth_function] (lines 26-31) *)

Definition smooth_function (fraction : R) : R :=
  if Rle_dec fraction 0 then 0
  else if Rge_dec fraction 1 then 1
  else 3 * fraction * fraction - 2 * fraction * fraction * fraction.

(** ** mathutils vectors *)

Record Vector : Type := mkVector { vx : R; vy : R; vz : R }.

Definition vadd (a b : Vector) : Vector :=
  mkVector (vx a + vx b) (vy a + vy b) (vz a + vz b).

Definition vsub (a b : Vector) : Vector :=
  mkVector (vx a - vx b) (vy a - vy b) (vz a - vz b).

(** [s * v] for a float [s]. *)
Definition vscale (s : R) (v : Vector) : Vector :=
  mkVector (s * vx v) (s * vy v) (s * vz v).

Definition dot (a b : Vector) : R :=
  vx a * vx b + vy a * vy b + vz a * vz b.

Definition vzero : Vector := mkVector 0 0 0.

(** [v.normalized()]: a vector of squared length zero is returned as the
    zero vector, any other is divided by its length. *)
Definition normalized (v : Vector) : Vector :=
  if Rlt_dec 0 (dot v v) then vscale (/ sqrt (dot v v)) v else vzero.

(** ** mathutils 4x4 matrices

    [mIJ] is the entry of row [I] and column [J]. *)

Record Matrix : Type := mkMatrix {
  m00 : R; m01 : R; m02 : R; m03 : R;
  m10 : R; m11 : R; m12 : R; m13 : R;
  m20 : R; m21 : R; m22 : R; m23 : R;
  m30 : R; m31 : R; m32 : R; m33 : R
}.

Definition identity : Matrix :=
  mkMatrix 1 0 0 0
           0 1 0 0
           0 0 1 0
           0 0 0 1.

(** [Matrix.Translation(t)]. *)
Definition Translation (t : Vector) : Matrix :=
  mkMatrix 1 0 0 (vx t)
           0 1 0 (vy t)
           0 0 1 (vz t)
           0 0 0 1.

(** [A @ B] for two matrices. *)
Definition matmul (A B : Matrix) : Matrix :=
  mkMatrix
    (m00 A * m00 B + m01 A * m10 B + m02 A * m20 B + m03 A * m30 B)
    (m00 A * m01 B + m01 A * m11 B + m02 A * m21 B + m03 A * m31 B)
    (m00 A * m02 B + m01 A * m12 B + m02 A * m22 B + m03 A * m32 B)
    (m00 A * m03 B + m01 A * m13 B + m02 A * m23 B + m03 A * m33 B)
    (m10 A * m00 B + m11 A * m10 B + m12 A * m20 B + m13 A * m30 B)
    (m10 A * m01 B + m11 A * m11 B + m12 A * m21 B + m13 A * m31 B)
    (m10 A * m02 B + m11 A * m12 B + m12 A * m22 B + m13 A * m32 B)
    (m10 A * m03 B + m11 A * m13 B + m12 A * m23 B + m13 A * m33 B)
    (m20 A * m00 B + m21 A * m10 B + m22 A * m20 B + m23 A * m30 B)
    (m20 A * m01 B + m21 A * m11 B + m22 A * m21 B + m23 A * m31 B)
    (m20 A * m02 B + m21 A * m12 B + m22 A * m22 B + m23 A * m32 B)
    (m20 A * m03 B + m21 A * m13 B + m22 A * m23 B + m23 A * m33 B)
    (m30 A * m00 B + m31 A * m10 B + m32 A * m20 B + m33 A * m30 B)
    (m30 A * m01 B + m31 A * m11 B + m32 A * m21 B + m33 A * m31 B)
    (m30 A * m02 B + m31 A * m12 B + m32 A * m22 B + m33 A * m32 B)
    (m30 A * m03 B + m31 A * m13 B + m32 A * m23 B + m33 A * m33 B).

(** [M @ v] for a 4x4 matrix and a 3D vector: [v] is extended with [w = 1]
    and the first three coordinates of the product are returned. *)
Definition matvec (M : Matrix) (v : Vector) : Vector :=
  mkVector (m00 M * vx v + m01 M * vy v + m02 M * vz v + m03 M * 1)
           (m10 M * vx v + m11 M * vy v + m12 M * vz v + m13 M * 1)
           (m20 M * vx v + m21 M * vy v + m22 M * vz v + m23 M * 1).

Definition det3 (a b c d e f g h i : R) : R :=
  a * (e * i - f * h) - b * (d * i - f * g) + c * (d * h - e * g).

Definition determinant (M : Matrix) : R :=
    m00 M * det3 (m11 M) (m12 M) (m13 M) (m21 M) (m22 M) (m23 M) (m31 M) (m32 M) (m33 M)
  - m01 M * det3 (m10 M) (m12 M) (m13 M) (m20 M) (m22 M) (m23 M) (m30 M) (m32 M) (m33 M)
  + m02 M * det3 (m10 M) (m11 M) (m13 M) (m20 M) (m21 M) (m23 M) (m30 M) (m31 M) (m33 M)
  - m03 M * det3 (m10 M) (m11 M) (m12 M) (m20 M) (m21 M) (m22 M) (m30 M) (m31 M) (m32 M).

(** The transposed matrix of cofactors. *)
Definition adjoint (M : Matrix) : Matrix :=
  mkMatrix
    (det3 (m11 M) (m12 M) (m13 M) (m21 M) (m22 M) (m23 M) (m31 M) (m32 M) (m33 M))
    (- det3 (m01 M) (m02 M) (m03 M) (m21 M) (m22 M) (m23 M) (m31 M) (m32 M) (m33 M))
    (det3 (m01 M) (m02 M) (m03 M) (m11 M) (m12 M) (m13 M) (m31 M) (m32 M) (m33 M))
    (- det3 (m01 M) (m02 M) (m03 M) (m11 M) (m12 M) (m13 M) (m21 M) (m22 M) (m23 M))
    (- det3 (m10 M) (m12 M) (m13 M) (m20 M) (m22 M) (m23 M) (m30 M) (m32 M) (m33 M))
    (det3 (m00 M) (m02 M) (m03 M) (m20 M) (m22 M) (m23 M) (m30 M) (m32 M) (m33 M))
    (- det3 (m00 M) (m02 M) (m03 M) (m10 M) (m12 M) (m13 M) (m30 M) (m32 M) (m33 M))
    (det3 (m00 M) (m02 M) (m03 M) (m10 M) (m12 M) (m13 M) (m20 M) (m22 M) (m23 M))
    (det3 (m10 M) (m11 M) (m13 M) (m20 M) (m21 M) (m23 M) (m30 M) (m31 M) (m33 M))
    (- det3 (m00 M) (m01 M) (m03 M) (m20 M) (m21 M) (m23 M) (m30 M) (m31 M) (m33 M))
    (det3 (m00 M) (m01 M) (m03 M) (m10 M) (m11 M) (m13 M) (m30 M) (m31 M) (m33 M))
    (- det3 (m00 M) (m01 M) (m03 M) (m10 M) (m11 M) (m13 M) (m20 M) (m21 M) (m23 M))
    (- det3 (m10 M) (m11 M) (m12 M) (m20 M) (m21 M) (m22 M) (m30 M) (m31 M) (m32 M))
    (det3 (m00 M) (m01 M) (m02 M) (m20 M) (m21 M) (m22 M) (m30 M) (m31 M) (m32 M))
    (- det3 (m00 M) (m01 M) (m02 M) (m10 M) (m11 M) (m12 M) (m30 M) (m31 M) (m32 M))
    (det3 (m00 M) (m01 M) (m02 M) (m10 M) (m11 M) (m12 M) (m20 M) (m21 M) (m22 M)).

Definition mscale (s : R) (M : Matrix) : Matrix :=
  mkMatrix (s * m00 M) (s * m01 M) (s * m02 M) (s * m03 M)
           (s * m10 M) (s * m11 M) (s * m12 M) (s * m13 M)
           (s * m20 M) (s * m21 M) (s * m22 M) (s * m23 M)
           (s * m30 M) (s * m31 M) (s * m32 M) (s * m33 M).

(** [M.inverted()]: the adjoint divided by the determinant; a matrix of
    determinant zero has no inverse and [ValueError] is raised. *)
Definition inverted (M : Matrix) : result Matrix :=
  if Req_dec_T (determinant M) 0 then Raise ValueError
  else Ok (mscale (/ determinant M) (adjoint M)).

(** ** The scene the script reads

    The script reads three things from Blender: the deformed object (its
    world matrix and the coordinates of its vertices), and the objects of the
    anchor collection.  An anchor's handle is its first child; only the
    child's world matrix is used. *)

Record Child : Type := mkChild { child_matrix_world : Matrix }.

Record Object : Type := mkObject {
  parent : option nat;          (* [o.parent]; [None] for a parentless object *)
  location : Vector;            (* [o.location] *)
  matrix_world : Matrix;        (* [o.matrix_world] *)
  children : list Child         (* [o.children] *)
}.

Record Scene : Type := mkScene {
  cloud_matrix_world : Matrix;  (* [cloud.matrix_world] *)
  vertices : list Vector;       (* [point.co] for the points of the cloud *)
  collection : list Object      (* [bpy.data.collections[ANCHORS_NAME].objects] *)
}.

Definition DELAUNAY_MINIMUM_POINTS : nat := 5.

(** Line 41: the anchors are the parentless objects of the collection. *)
Definition select_anchors (objs : list Object) : list Object :=
  filter (fun o => match parent o with None => true | Some _ => false end) objs.

(** ** The neighbour table (lines 44-56) *)

(** [l.pop(k)], as the list that is left. *)
Definition pop {A : Type} (l : list A) (k : nat) : result (list A) :=
  if k <? length l then Ok (firstn k l ++ skipn (S k) l) else Raise IndexError.

(** [l[a:b]] for non-negative [a] and [b]. *)
Definition slice {A : Type} (l : list A) (a b : nat) : list A :=
  firstn (b - a) (skipn a l).

(** Lines 53-56, one round of the loop. *)
Definition all_except_this (n k : nat) : result (list nat) :=
  pop (seq 0 n) k.

(** [Delaunay] stands for [scipy.spatial.Delaunay(...).vertex_neighbor_vertices]:
    given the anchor locations it returns the pair [(pointers, indices)] or
    raises. *)
Definition build_neighbors
    (Delaunay : list Vector -> result (list nat * list nat))
    (anchors : list Object) : result (list (list nat)) :=
  let n := length anchors in
  if DELAUNAY_MINIMUM_POINTS <=? n then
    pi <- Delaunay (map location anchors) ;;
    let pointers := fst pi in
    let indices := snd pi in
    mapM (fun k =>
            a <- getitem pointers k ;;
            b <- getitem pointers (k + 1) ;;
            Ok (slice indices a b))
         (seq 0 n)
  else
    mapM (all_except_this n) (seq 0 n).

(** ** The cell test (lines 65-79) *)

(** Lines 72-76: is the point beyond the plane through the second anchor? *)
Definition beyond (point_in_world first_coords second_coords : Vector) : bool :=
  let delta_normalized := normalized (vsub second_coords first_coords) in
  let outer_threshold := dot second_coords delta_normalized in
  let dot_ := dot point_in_world delta_normalized in
  if Rgt_dec dot_ outer_threshold then true else false.

(** The loop over [second_anchor_index]; the result is the final value of
    [in_cell].  The loop breaks at the first plane the point is beyond. *)
Fixpoint membership_loop (point_in_world first_coords : Vector) (anchors : list Object)
    (first_anchor_index : nat) (seconds : list nat) : result bool :=
  match seconds with
  | [] => Ok true
  | second_anchor_index :: rest =>
      if Nat.eqb first_anchor_index second_anchor_index then
        membership_loop point_in_world first_coords anchors first_anchor_index rest
      else
        second <- getitem anchors second_anchor_index ;;
        if beyond point_in_world first_coords (location second) then Ok false
        else membership_loop point_in_world first_coords anchors first_anchor_index rest
  end.

Definition in_cell (point_in_world : Vector) (anchors : list Object)
    (first_anchor_index : nat) : result bool :=
  first <- getitem anchors first_anchor_index ;;
  membership_loop point_in_world (location first) anchors first_anchor_index
    (seq 0 (length anchors)).

(** ** The boundary falloff (lines 85-94) *)

(** Lines 88-92. *)
Definition boundary_fraction (point_in_world first_coords second_coords : Vector)
    : result R :=
  let delta_normalized := normalized (vsub second_coords first_coords) in
  let inner_threshold := dot first_coords delta_normalized in
  let outer_threshold := dot second_coords delta_normalized in
  truediv (dot point_in_world delta_normalized - inner_threshold)
          (outer_threshold - inner_threshold).

(** The loop over [neighbors[first_anchor_index]]; [coeff] is the current
    value of [influence_coeffs[first_anchor_index]]. *)
Fixpoint boundary_loop (point_in_world first_coords : Vector) (anchors : list Object)
    (coeff : R) (nbrs : list nat) : result R :=
  match nbrs with
  | [] => Ok coeff
  | neighbor_index :: rest =>
      second <- getitem anchors neighbor_index ;;
      fraction <- boundary_fraction point_in_world first_coords (location second) ;;
      let influence_curve := 1 - smooth_function fraction in
      boundary_loop point_in_world first_coords anchors (coeff * influence_curve) rest
  end.

(** One round of the loop over [first_anchor_index] (lines 65-96): the final
    value of [influence_coeffs[first_anchor_index]], which starts at 1. *)
Definition cell_coeff (point_in_world : Vector) (anchors : list Object)
    (neighbors : list (list nat)) (first_anchor_index : nat) : result R :=
  first <- getitem anchors first_anchor_index ;;
  inside <- membership_loop point_in_world (location first) anchors
              first_anchor_index (seq 0 (length anchors)) ;;
  if inside then
    nbrs <- getitem neighbors first_anchor_index ;;
    boundary_loop point_in_world (location first) anchors 1 nbrs
  else Ok 0.

(** [influence_coeffs] at line 98, before it is normalized. *)
Definition raw_coeffs (point_in_world : Vector) (anchors : list Object)
    (neighbors : list (list nat)) : result (list R) :=
  mapM (cell_coeff point_in_world anchors neighbors) (seq 0 (length anchors)).

(** ** Normalization (lines 99-102) *)

(** Python's [sum]. *)
Definition sum (l : list R) : R := fold_left Rplus l 0.

Definition normalize_coeffs (influence_coeffs : list R) : list R :=
  let coeffs_sum := sum influence_coeffs in
  if Req_dec_T coeffs_sum 0 then influence_coeffs
  else map (fun i => i / coeffs_sum) influence_coeffs.

(** ** Blending (lines 104-115) *)

(** Lines 110-111. *)
Definition displaced_in_world (cloud_mw : Matrix) (point_co : Vector)
    (anchor : Object) : result Vector :=
  end_ <- getitem (children anchor) 0 ;;
  anchor_inv <- inverted (matrix_world anchor) ;;
  let point_in_anchor := matvec (matmul anchor_inv cloud_mw) point_co in
  Ok (matvec (child_matrix_world end_) point_in_anchor).

(** The loop over [anchor_index]; the accumulator is [new_in_world]. *)
Fixpoint displacement_loop (cloud_mw : Matrix) (point_co : Vector)
    (anchors : list Object) (influence_coeffs : list R)
    (new_in_world : Vector) (indices : list nat) : result Vector :=
  match indices with
  | [] => Ok new_in_world
  | anchor_index :: rest =>
      anchor <- getitem anchors anchor_index ;;
      displaced <- displaced_in_world cloud_mw point_co anchor ;;
      coeff <- getitem influence_coeffs anchor_index ;;
      displacement_loop cloud_mw point_co anchors influence_coeffs
        (vadd new_in_world (vscale coeff displaced)) rest
  end.

(** [new_in_world] at line 114, for normalized coefficients. *)
Definition blend (cloud_mw : Matrix) (point_co : Vector) (anchors : list Object)
    (influence_coeffs : list R) : result Vector :=
  displacement_loop cloud_mw point_co anchors influence_coeffs vzero
    (seq 0 (length anchors)).

(** One round of the loop over the points (lines 59-115): the new value of
    [point.co]. *)
Definition displace_point (cloud_mw matrix_cloud_to_world : Matrix)
    (anchors : list Object) (neighbors : list (list nat)) (point_co : Vector)
    : result Vector :=
  let point_in_world := matvec cloud_mw point_co in
  raw <- raw_coeffs point_in_world anchors neighbors ;;
  new_in_world <- blend cloud_mw point_co anchors (normalize_coeffs raw) ;;
  Ok (matvec matrix_cloud_to_world new_in_world).

(** ** The script *)

(** What the script leaves behind: the coordinates of the vertices, and the
    exception that stopped it, if any. *)
Record Outcome : Type := mkOutcome {
  vertices_after : list Vector;
  raised : option exn
}.

(** The loop over the points.  The points are updated in place, so the
    points before the one that raises keep their new coordinates. *)
Fixpoint point_loop (cloud_mw matrix_cloud_to_world : Matrix)
    (anchors : list Object) (neighbors : list (list nat)) (points : list Vector)
    : Outcome :=
  match points with
  | [] => mkOutcome [] None
  | point_co :: rest =>
      match displace_point cloud_mw matrix_cloud_to_world anchors neighbors point_co with
      | Raise e => mkOutcome (point_co :: rest) (Some e)
      | Ok new_co =>
          let o := point_loop cloud_mw matrix_cloud_to_world anchors neighbors rest in
          mkOutcome (new_co :: vertices_after o) (raised o)
      end
  end.

(** Lines 36-56: what is computed before the loop over the points. *)
Definition setup (Delaunay : list Vector -> result (list nat * list nat))
    (s : Scene) : result (Matrix * list Object * list (list nat)) :=
  matrix_cloud_to_world <- inverted (cloud_matrix_world s) ;;
  let anchors := select_anchors (collection s) in
  neighbors <- build_neighbors Delaunay anchors ;;
  Ok (matrix_cloud_to_world, anchors, neighbors).

Definition script (Delaunay : list Vector -> result (list nat * list nat))
    (s : Scene) : Outcome :=
  match setup Delaunay s with
  | Raise e => mkOutcome (vertices s) (Some e)
  | Ok (matrix_cloud_to_world, anchors, neighbors) =>
      point_loop (cloud_matrix_world s) matrix_cloud_to_world anchors neighbors
        (vertices s)
  end.

(** An anchor the blending loop can process: it has a handle
    ([children[0]] exists) and its world matrix can be inverted. *)
Definition has_handle (anchor : Object) : Prop :=
  children anchor <> [] /\ determinant (matrix_world anchor) <> 0.

(** The weight vector that gives everything to anchor [i]. *)
Definition indicator (n i : nat) : list R :=
  map (fun k => if Nat.eqb k i then 1 else 0) (seq 0 n).

(** The squared distance between two points. *)
Definition dist2 (p c : Vector) : R := dot (vsub p c) (vsub p c).


(** The layout of [vertex_neighbor_vertices] described at line 49: the rows
    of neighbours one after another in [indices], and in [pointers] the
    offset at which each row starts, closed by the total length. *)
Fixpoint row_pointers (start : nat) (rows : list (list nat)) : list nat :=
  match rows with
  | [] => [start]
  | row :: rest => start :: row_pointers (start + length row) rest
  end.

(** A triangulation that answers with the given rows in that layout. *)
Definition rows_Delaunay (rows : list (list nat)) (locations : list Vector)
    : result (list nat * list nat) :=
  Ok (row_pointers 0 rows, concat rows).





(** ** Test scenes

    The two-anchor scene of the specification: anchors at [(0,0,0)] and
    [(2,0,0)], neither rotated nor scaled, whose handles sit at the anchor
    translated by [(0,1,0)] and by [(0,-1,0)]; the deformed object has the
    identity as world matrix. *)

Definition anchor0 : Object :=
  mkObject None (mkVector 0 0 0) (Translation (mkVector 0 0 0))
           [mkChild (Translation (mkVector 0 1 0))].

Definition anchor1 : Object :=
  mkObject None (mkVector 2 0 0) (Translation (mkVector 2 0 0))
           [mkChild (Translation (mkVector 2 (-1) 0))].

Definition two_anchors : list Object := [anchor0; anchor1].

Definition two_anchor_scene (points : list Vector) : Scene :=
  mkScene identity points two_anchors.

(** Two anchors at the same place. *)
Definition coincident_scene (points : list Vector) : Scene :=
  mkScene identity points [anchor0; anchor0].

(** No anchor at all. *)
Definition empty_scene (points : list Vector) : Scene :=
  mkScene identity points [].

(** A triangulation that always fails; the scenes above have fewer than five
    anchors and never call it. *)
Definition failing_Delaunay (locations : list Vector) : result (list nat * list nat) :=
  Raise QhullError.








(** * Properties *)

(** ** Matrices *)

Ltac unfold_matrix :=
  cbv [matmul matvec identity Translation mscale adjoint determinant det3
       m00 m01 m02 m03 m10 m11 m12 m13 m20 m21 m22 m23 m30 m31 m32 m33].

Lemma Matrix_ext (A B : Matrix) :
  m00 A = m00 B -> m01 A = m01 B -> m02 A = m02 B -> m03 A = m03 B ->
  m10 A = m10 B -> m11 A = m11 B -> m12 A = m12 B -> m13 A = m13 B ->
  m20 A = m20 B -> m21 A = m21 B -> m22 A = m22 B -> m23 A = m23 B ->
  m30 A = m30 B -> m31 A = m31 B -> m32 A = m32 B -> m33 A = m33 B ->
  A = B.
Proof.
  destruct A, B; cbn; intros; subst; reflexivity.
Qed.







(** ** The smoothstep curve *)

Lemma smooth_function_nonpos (f : R) : f <= 0 -> smooth_function f = 0.
Proof.
  intros Hf. unfold smooth_function.
  destruct (Rle_dec f 0) as [_|Hn]; [reflexivity | contradiction].
Qed.


Lemma smooth_function_inside (f : R) :
  0 < f < 1 -> smooth_function f = 3 * f * f - 2 * f * f * f.
Proof.
  intros [H0 H1]. unfold smooth_function.
  destruct (Rle_dec f 0) as [H|_]; [lra|].
  destruct (Rge_dec f 1) as [H|_]; [lra | reflexivity].
Qed.


Lemma smooth_function_half : smooth_function (1 / 2) = 1 / 2.
Proof. rewrite smooth_function_inside by lra. field. Qed.








(** ** Lists and the error monad *)

Lemma getitem_Some {A : Type} (l : list A) (k : nat) (a : A) :
  nth_error l k = Some a -> getitem l k = Ok a.
Proof. intros H; unfold getitem; rewrite H; reflexivity. Qed.


Lemma mapM_pure {A B : Type} (f : A -> result B) (g : A -> B) (l : list A) :
  (forall x, In x l -> f x = Ok (g x)) -> mapM f l = Ok (map g l).
Proof.
  induction l as [|x xs IH]; intros H; simpl; [reflexivity|].
  rewrite (H x) by (left; reflexivity). simpl.
  rewrite IH by (intros y Hy; apply H; right; exact Hy).
  reflexivity.
Qed.


Lemma firstn_seq (k start len : nat) :
  firstn k (seq start len) = seq start (Nat.min k len).
Proof.
  revert start len; induction k as [|k IH]; intros start [|len]; simpl;
    try reflexivity.
  rewrite IH; reflexivity.
Qed.

(** ** The neighbour table *)

Lemma all_except_this_eq (n k : nat) :
  (k < n)%nat -> all_except_this n k = Ok (seq 0 k ++ seq (S k) (n - S k)).
Proof.
  intros Hk. unfold all_except_this, pop.
  rewrite length_seq.
  destruct (Nat.ltb_spec k n) as [_|H]; [|lia].
  rewrite firstn_seq, skipn_seq, Nat.min_l by lia.
  reflexivity.
Qed.

Lemma In_others (n k j : nat) :
  (k < n)%nat -> In j (seq 0 k ++ seq (S k) (n - S k)) <-> (j < n)%nat /\ j <> k.
Proof.
  intros Hk. rewrite in_app_iff, !in_seq. lia.
Qed.

Lemma NoDup_others (n k : nat) : NoDup (seq 0 k ++ seq (S k) (n - S k)).
Proof.
  apply NoDup_app; try apply seq_NoDup.
  intros a. rewrite !in_seq. lia.
Qed.

(** Below the Delaunay minimum the table is the complete graph, whatever
    the triangulation would have returned. *)
Lemma build_neighbors_fallback
    (Delaunay : list Vector -> result (list nat * list nat)) (anchors : list Object) :
  (length anchors < DELAUNAY_MINIMUM_POINTS)%nat ->
  build_neighbors Delaunay anchors
  = Ok (map (fun k => seq 0 k ++ seq (S k) (length anchors - S k))
            (seq 0 (length anchors))).
Proof.
  intros Hn. unfold build_neighbors.
  destruct (Nat.leb_spec DELAUNAY_MINIMUM_POINTS (length anchors)) as [H|_]; [lia|].
  apply mapM_pure. intros k Hk. apply in_seq in Hk.
  apply all_except_this_eq. lia.
Qed.

(** C7.  For fewer than 5 anchors the neighbour table is the complete graph:
    it has one entry per anchor, and the entry of anchor [k] lists, once
    each, exactly the indices of all the other anchors. *)
Theorem neighbors_complete_graph
    (Delaunay : list Vector -> result (list nat * list nat)) (anchors : list Object) :
  (length anchors < 5)%nat ->
  exists neighbors : list (list nat),
    build_neighbors Delaunay anchors = Ok neighbors /\
    length neighbors = length anchors /\
    forall k : nat, (k < length anchors)%nat ->
      exists nbrs : list nat,
        nth_error neighbors k = Some nbrs /\
        NoDup nbrs /\
        forall j : nat, In j nbrs <-> (j < length anchors)%nat /\ j <> k.
Proof.
  intros Hn.
  eexists. split; [apply build_neighbors_fallback; exact Hn|].
  split; [rewrite length_map, length_seq; reflexivity|].
  intros k Hk.
  eexists. split.
  - rewrite nth_error_map, nth_error_seq.
    destruct (Nat.ltb_spec k (length anchors)) as [_|H]; [|lia].
    reflexivity.
  - split; [apply NoDup_others|].
    intros j. apply In_others. exact Hk.
Qed.

(** ** The cell test *)

Lemma beyond_true_iff (p first_coords second_coords : Vector) :
  beyond p first_coords second_coords = true <->
  dot p (normalized (vsub second_coords first_coords))
  > dot second_coords (normalized (vsub second_coords first_coords)).
Proof.
  unfold beyond.
  destruct (Rgt_dec _ _) as [H|H]; split; intros H'; auto; try discriminate.
Qed.

Lemma beyond_false_iff (p first_coords second_coords : Vector) :
  beyond p first_coords second_coords = false <->
  dot p (normalized (vsub second_coords first_coords))
  <= dot second_coords (normalized (vsub second_coords first_coords)).
Proof.
  unfold beyond.
  destruct (Rgt_dec _ _) as [H|H]; split; intros H'; auto; try discriminate; lra.
Qed.

(** The loop returns [True] exactly when no plane of the list excludes the
    point. *)
Lemma membership_loop_true (p fc : Vector) (anchors : list Object) (i : nat)
    (seconds : list nat) :
  (forall j, In j seconds -> (j < length anchors)%nat) ->
  membership_loop p fc anchors i seconds = Ok true <->
  (forall j second, In j seconds -> j <> i -> nth_error anchors j = Some second ->
     beyond p fc (location second) = false).
Proof.
  induction seconds as [|k rest IH]; intros Hrange; simpl.
  - split; [intros _ j second [] | reflexivity].
  - assert (Hrest : forall j, In j rest -> (j < length anchors)%nat)
      by (intros j Hj; apply Hrange; right; exact Hj).
    specialize (IH Hrest).
    destruct (Nat.eqb_spec i k) as [->|Hik].
    + rewrite IH. split.
      * intros H j second [<-|Hj] Hne Hs; [congruence | eauto].
      * intros H j second Hj; apply H; right; exact Hj.
    + destruct (nth_error anchors k) as [second|] eqn:Hk.
      2:{ apply nth_error_None in Hk. specialize (Hrange k (or_introl eq_refl)). lia. }
      rewrite (getitem_Some _ _ _ Hk); simpl.
      destruct (beyond p fc (location second)) eqn:Hb.
      * split; [discriminate|].
        intros H.
        assert (Hf : beyond p fc (location second) = false)
          by (apply (H k second); [left; reflexivity | auto | exact Hk]).
        congruence.
      * rewrite IH. split.
        -- intros H j s [<-|Hj] Hne Hs; [congruence | eauto].
        -- intros H j s Hj; apply H; right; exact Hj.
Qed.

(** The loop returns [False] exactly when some plane of the list excludes
    the point. *)
Lemma membership_loop_false (p fc : Vector) (anchors : list Object) (i : nat)
    (seconds : list nat) :
  (forall j, In j seconds -> (j < length anchors)%nat) ->
  membership_loop p fc anchors i seconds = Ok false <->
  (exists j second, In j seconds /\ j <> i /\ nth_error anchors j = Some second /\
     beyond p fc (location second) = true).
Proof.
  induction seconds as [|k rest IH]; intros Hrange; simpl.
  - split; [discriminate | intros (j & s & [] & _)].
  - assert (Hrest : forall j, In j rest -> (j < length anchors)%nat)
      by (intros j Hj; apply Hrange; right; exact Hj).
    specialize (IH Hrest).
    destruct (Nat.eqb_spec i k) as [->|Hik].
    + rewrite IH. split.
      * intros (j & s & Hj & H); exists j, s; split; [right; exact Hj | exact H].
      * intros (j & s & [<-|Hj] & Hne & H); [congruence|].
        exists j, s; auto.
    + destruct (nth_error anchors k) as [second|] eqn:Hk.
      2:{ apply nth_error_None in Hk. specialize (Hrange k (or_introl eq_refl)). lia. }
      rewrite (getitem_Some _ _ _ Hk); simpl.
      destruct (beyond p fc (location second)) eqn:Hb.
      * split; [|reflexivity].
        intros _. exists k, second.
        split; [left; reflexivity|]. split; [auto|]. split; [exact Hk | exact Hb].
      * rewrite IH. split.
        -- intros (j & s & Hj & H); exists j, s; split; [right; exact Hj | exact H].
        -- intros (j & s & [<-|Hj] & Hne & Hs & H); [congruence|].
           exists j, s; auto.
Qed.

Lemma seq_in_range (n j : nat) : In j (seq 0 n) -> (j < n)%nat.
Proof. rewrite in_seq; lia. Qed.

Lemma in_cell_true (p : Vector) (anchors : list Object) (i : nat) (first : Object) :
  nth_error anchors i = Some first ->
  in_cell p anchors i = Ok true <->
  (forall j second, j <> i -> nth_error anchors j = Some second ->
     beyond p (location first) (location second) = false).
Proof.
  intros Hi. unfold in_cell. rewrite (getitem_Some _ _ _ Hi); simpl.
  rewrite membership_loop_true by apply seq_in_range.
  split.
  - intros H j second Hne Hs. apply (H j second); auto.
    apply in_seq. split; [lia|]. simpl. apply nth_error_Some. congruence.
  - intros H j second _ Hne Hs. eauto.
Qed.

Lemma in_cell_false (p : Vector) (anchors : list Object) (i : nat) (first : Object) :
  nth_error anchors i = Some first ->
  in_cell p anchors i = Ok false <->
  (exists j second, j <> i /\ nth_error anchors j = Some second /\
     beyond p (location first) (location second) = true).
Proof.
  intros Hi. unfold in_cell. rewrite (getitem_Some _ _ _ Hi); simpl.
  rewrite membership_loop_false by apply seq_in_range.
  split.
  - intros (j & s & _ & H); exists j, s; exact H.
  - intros (j & s & Hne & Hs & H); exists j, s. repeat split; auto.
    apply in_seq. split; [lia|]. simpl. apply nth_error_Some. congruence.
Qed.

(** C10.  Cell membership is boundary-inclusive.  For an anchor [i], the
    point is classified inside the cell exactly when, for every other anchor
    [j], its dot product with the boundary normal is at most the outer
    threshold (equality included: a point on the plane through [j] is
    inside), and outside exactly when for some other anchor the dot product
    is strictly greater than the threshold. *)
Theorem cell_membership_boundary_inclusive
    (p : Vector) (anchors : list Object) (i : nat) (first : Object) :
  nth_error anchors i = Some first ->
  (in_cell p anchors i = Ok true <->
   forall (j : nat) (second : Object),
     j <> i -> nth_error anchors j = Some second ->
     dot p (normalized (vsub (location second) (location first)))
     <= dot (location second) (normalized (vsub (location second) (location first))))
  /\
  (in_cell p anchors i = Ok false <->
   exists (j : nat) (second : Object),
     j <> i /\ nth_error anchors j = Some second /\
     dot p (normalized (vsub (location second) (location first)))
     > dot (location second) (normalized (vsub (location second) (location first)))).
Proof.
  intros Hi. split.
  - rewrite (in_cell_true _ _ _ _ Hi). split.
    + intros H j second Hne Hs. apply beyond_false_iff. eauto.
    + intros H j second Hne Hs. apply beyond_false_iff. eauto.
  - rewrite (in_cell_false _ _ _ _ Hi). split.
    + intros (j & s & Hne & Hs & H). exists j, s. repeat split; auto.
      apply beyond_true_iff. exact H.
    + intros (j & s & Hne & Hs & H). exists j, s. repeat split; auto.
      apply beyond_true_iff. exact H.
Qed.

(** ** Vectors along the first axis, and coincident anchors *)

Lemma Vector_ext (a b : Vector) :
  vx a = vx b -> vy a = vy b -> vz a = vz b -> a = b.
Proof. destruct a, b; cbn; intros; subst; reflexivity. Qed.

Lemma dot_self_nonneg (v : Vector) : 0 <= dot v v.
Proof. unfold dot. nra. Qed.

Lemma dot_self_zero (v : Vector) : dot v v = 0 -> v = vzero.
Proof.
  unfold dot. intros H.
  apply Vector_ext; cbn; nra.
Qed.

Lemma dot_vzero_r (v : Vector) : dot v vzero = 0.
Proof. unfold dot, vzero; cbn; ring. Qed.

Lemma normalized_coincident (c : Vector) : normalized (vsub c c) = vzero.
Proof.
  unfold normalized.
  assert (H : dot (vsub c c) (vsub c c) = 0) by (unfold dot, vsub; cbn; ring).
  rewrite H. destruct (Rlt_dec 0 0) as [Hlt|_]; [lra | reflexivity].
Qed.

Lemma normalized_x_pos (v : Vector) :
  vy v = 0 -> vz v = 0 -> 0 < vx v -> normalized v = mkVector 1 0 0.
Proof.
  destruct v as [x y z]; cbn. intros -> -> Hx.
  unfold normalized, dot; cbn.
  replace (x * x + 0 * 0 + 0 * 0) with (x * x) by ring.
  destruct (Rlt_dec 0 (x * x)) as [_|Hn]; [|exfalso; apply Hn; nra].
  rewrite sqrt_square by lra.
  unfold vscale; cbn. f_equal; field; lra.
Qed.

Lemma normalized_x_neg (v : Vector) :
  vy v = 0 -> vz v = 0 -> vx v < 0 -> normalized v = mkVector (-1) 0 0.
Proof.
  destruct v as [x y z]; cbn. intros -> -> Hx.
  unfold normalized, dot; cbn.
  replace (x * x + 0 * 0 + 0 * 0) with ((- x) * (- x)) by ring.
  destruct (Rlt_dec 0 (- x * - x)) as [_|Hn]; [|exfalso; apply Hn; nra].
  rewrite sqrt_square by lra.
  unfold vscale; cbn. f_equal; field; lra.
Qed.

(** A coincident anchor never excludes the point: both dot products are
    taken with the zero vector. *)
Lemma beyond_coincident (p c : Vector) : beyond p c c = false.
Proof.
  apply beyond_false_iff. rewrite normalized_coincident, !dot_vzero_r. lra.
Qed.

(** The denominator of the fraction is the distance between the anchors. *)
Lemma thresholds_gap (c1 c2 : Vector) :
  0 < dot (vsub c2 c1) (vsub c2 c1) ->
  dot c2 (normalized (vsub c2 c1)) - dot c1 (normalized (vsub c2 c1))
  = sqrt (dot (vsub c2 c1) (vsub c2 c1)).
Proof.
  intros Hpos. unfold normalized.
  destruct (Rlt_dec 0 (dot (vsub c2 c1) (vsub c2 c1))) as [_|Hn]; [|contradiction].
  pose proof (sqrt_lt_R0 _ Hpos) as Hs.
  pose proof (sqrt_sqrt (dot (vsub c2 c1) (vsub c2 c1)) (Rlt_le _ _ Hpos)) as Hsq.
  set (s := sqrt (dot (vsub c2 c1) (vsub c2 c1))) in *.
  assert (Hd : dot c2 (vscale (/ s) (vsub c2 c1)) - dot c1 (vscale (/ s) (vsub c2 c1))
               = / s * dot (vsub c2 c1) (vsub c2 c1))
    by (unfold dot, vscale, vsub; cbn; ring).
  rewrite Hd, <- Hsq. field. lra.
Qed.

Lemma boundary_fraction_coincident (p c : Vector) :
  boundary_fraction p c c = Raise ZeroDivisionError.
Proof.
  unfold boundary_fraction, truediv.
  rewrite normalized_coincident, !dot_vzero_r.
  destruct (Req_dec_T (0 - 0) 0) as [_|Hn]; [reflexivity | exfalso; apply Hn; ring].
Qed.



(** ** The boundary loop *)

(** With valid neighbour indices the only exception the loop can raise is
    the division by zero, and it does raise it when a neighbour sits on the
    first anchor. *)
Lemma boundary_loop_coincident (p fc : Vector) (anchors : list Object)
    (nbrs : list nat) (coeff : R) (j : nat) (second : Object) :
  (forall k, In k nbrs -> (k < length anchors)%nat) ->
  In j nbrs -> nth_error anchors j = Some second -> location second = fc ->
  boundary_loop p fc anchors coeff nbrs = Raise ZeroDivisionError.
Proof.
  revert coeff; induction nbrs as [|k rest IH]; intros coeff Hrange Hj Hs Hloc.
  - destruct Hj.
  - simpl.
    destruct (nth_error anchors k) as [a|] eqn:Hk.
    2:{ apply nth_error_None in Hk. specialize (Hrange k (or_introl eq_refl)). lia. }
    rewrite (getitem_Some _ _ _ Hk); simpl.
    destruct (boundary_fraction p fc (location a)) as [f|e] eqn:Hf; simpl.
    + destruct Hj as [->|Hj].
      * exfalso. assert (a = second) by congruence; subst a.
        rewrite Hloc, boundary_fraction_coincident in Hf. discriminate.
      * apply IH; auto. intros k' Hk'; apply Hrange; right; exact Hk'.
    + f_equal. unfold boundary_fraction, truediv in Hf.
      destruct (Req_dec_T _ 0); inversion Hf; reflexivity.
Qed.

Lemma cell_coeff_inside (p : Vector) (anchors : list Object)
    (neighbors : list (list nat)) (i : nat) (first : Object) (nbrs : list nat) :
  nth_error anchors i = Some first ->
  in_cell p anchors i = Ok true ->
  nth_error neighbors i = Some nbrs ->
  cell_coeff p anchors neighbors i = boundary_loop p (location first) anchors 1 nbrs.
Proof.
  intros Hi Hin Hn. unfold cell_coeff, in_cell in *.
  rewrite (getitem_Some _ _ _ Hi) in *; simpl in *.
  rewrite Hin; simpl. rewrite (getitem_Some _ _ _ Hn). reflexivity.
Qed.

Lemma cell_coeff_outside (p : Vector) (anchors : list Object)
    (neighbors : list (list nat)) (i : nat) :
  in_cell p anchors i = Ok false ->
  cell_coeff p anchors neighbors i = Ok 0.
Proof.
  unfold cell_coeff, in_cell.
  destruct (getitem anchors i) as [first|e]; simpl; [|discriminate].
  intros ->. reflexivity.
Qed.

(** C2 (amended).  When two anchors coincide no geometry error is signalled.
    In the half-space membership step the normalized zero vector is the zero
    vector, so the pair does not exclude the point; in the boundary-softening
    step the division by [outer - inner = 0] is carried out and raises
    [ZeroDivisionError], and so does the computation of the weight of any
    cell that contains the point and has the coincident anchor among its
    neighbours. *)
Theorem coincident_anchors_raise_ZeroDivisionError
    (p : Vector) (anchors : list Object) (neighbors : list (list nat))
    (i j : nat) (first second : Object) (nbrs : list nat) :
  nth_error anchors i = Some first ->
  nth_error anchors j = Some second ->
  location second = location first ->
  beyond p (location first) (location second) = false /\
  boundary_fraction p (location first) (location second) = Raise ZeroDivisionError /\
  (in_cell p anchors i = Ok true ->
   nth_error neighbors i = Some nbrs ->
   (forall k, In k nbrs -> (k < length anchors)%nat) ->
   In j nbrs ->
   cell_coeff p anchors neighbors i = Raise ZeroDivisionError).
Proof.
  intros Hi Hj Hloc. rewrite Hloc.
  split; [apply beyond_coincident|].
  split; [apply boundary_fraction_coincident|].
  intros Hin Hn Hrange Hjn.
  rewrite (cell_coeff_inside _ _ _ _ _ _ Hi Hin Hn).
  apply (boundary_loop_coincident _ _ _ _ _ j second); auto.
Qed.

(** ** Evaluating the script on concrete matrices *)

Lemma determinant_Translation (t : Vector) : determinant (Translation t) = 1.
Proof. unfold_matrix. ring. Qed.

Lemma inverted_Translation (t : Vector) :
  inverted (Translation t)
  = Ok (Translation (mkVector (- vx t) (- vy t) (- vz t))).
Proof.
  unfold inverted. rewrite determinant_Translation.
  destruct (Req_dec_T 1 0) as [H|_]; [lra|].
  f_equal. apply Matrix_ext; unfold_matrix; cbn; field.
Qed.

Lemma identity_Translation : identity = Translation vzero.
Proof. reflexivity. Qed.

Lemma inverted_identity : inverted identity = Ok identity.
Proof.
  rewrite identity_Translation, inverted_Translation.
  f_equal. apply Matrix_ext; unfold_matrix; cbn; ring.
Qed.

Lemma matvec_identity (v : Vector) : matvec identity v = v.
Proof. apply Vector_ext; unfold_matrix; cbn; ring. Qed.

Lemma matvec_Translation (t v : Vector) : matvec (Translation t) v = vadd v t.
Proof. apply Vector_ext; unfold_matrix; unfold vadd; cbn; ring. Qed.

Lemma matmul_identity_r (M : Matrix) : matmul M identity = M.
Proof. destruct M; apply Matrix_ext; unfold_matrix; ring. Qed.

Lemma two_neighbors (Delaunay : list Vector -> result (list nat * list nat))
    (a b : Object) :
  build_neighbors Delaunay [a; b] = Ok [[1%nat]; [0%nat]].
Proof.
  rewrite build_neighbors_fallback by (unfold DELAUNAY_MINIMUM_POINTS; simpl; lia).
  reflexivity.
Qed.

Lemma in_cell_coincident_pair (p : Vector) :
  in_cell p [anchor0; anchor0] 0 = Ok true.
Proof.
  apply (in_cell_true p [anchor0; anchor0] 0%nat anchor0); [reflexivity|].
  intros [|[|j]] second Hne Hs; [congruence | | destruct j; discriminate].
  inversion Hs; subst. apply beyond_coincident.
Qed.

Lemma cell_coeff_coincident_pair (p : Vector) :
  cell_coeff p [anchor0; anchor0] [[1%nat]; [0%nat]] 0 = Raise ZeroDivisionError.
Proof.
  rewrite (cell_coeff_inside p _ _ 0%nat anchor0 [1%nat]);
    [|reflexivity | apply in_cell_coincident_pair | reflexivity].
  apply (boundary_loop_coincident _ _ _ _ _ 1%nat anchor0);
    [|left; reflexivity | reflexivity | reflexivity].
  intros k [<-|[]]. simpl. lia.
Qed.

Lemma script_coincident_scene (p : Vector) :
  script failing_Delaunay (coincident_scene [p])
  = mkOutcome [p] (Some ZeroDivisionError).
Proof.
  unfold script, setup, coincident_scene.
  cbn [cloud_matrix_world collection vertices select_anchors filter parent anchor0].
  rewrite inverted_identity. cbn [bind]. rewrite two_neighbors. cbn [bind].
  cbn [point_loop]. unfold displace_point, raw_coeffs.
  cbn [length seq mapM].
  rewrite cell_coeff_coincident_pair. reflexivity.
Qed.

Lemma coincident_anchors_raise_ZeroDivisionError_witness :
  beyond (mkVector 1 2 3) (location anchor0) (location anchor0) = false /\
  boundary_fraction (mkVector 1 2 3) (location anchor0) (location anchor0)
  = Raise ZeroDivisionError /\
  cell_coeff (mkVector 1 2 3) [anchor0; anchor0] [[1%nat]; [0%nat]] 0
  = Raise ZeroDivisionError.
Proof.
  destruct (coincident_anchors_raise_ZeroDivisionError (mkVector 1 2 3)
              [anchor0; anchor0] [[1%nat]; [0%nat]] 0%nat 1%nat anchor0 anchor0
              [1%nat] eq_refl eq_refl eq_refl) as (Hb & Hf & Hc).
  split; [exact Hb|]. split; [exact Hf|].
  apply Hc.
  - apply in_cell_coincident_pair.
  - reflexivity.
  - intros k [<-|[]]. simpl. lia.
  - left; reflexivity.
Defined.

(** C2, as stated, fails: with two anchors at the same place the membership
    step returns normally, with the point inside the cell, and the script
    stops on the division by zero of the softening step. *)
Lemma coincident_anchors_counterexample :
  in_cell (matvec identity (mkVector 1 2 3)) [anchor0; anchor0] 0 = Ok true /\
  script failing_Delaunay (coincident_scene [mkVector 1 2 3])
  = mkOutcome [mkVector 1 2 3] (Some ZeroDivisionError).
Proof.
  split; [apply in_cell_coincident_pair | apply script_coincident_scene].
Qed.

(** ** Raw weights lie between 0 and 1 *)





(** ** Sums and normalization *)

Lemma fold_left_Rplus (l : list R) (a : R) :
  fold_left Rplus l a = a + sum l.
Proof.
  unfold sum. revert a; induction l as [|x xs IH]; intros a; simpl.
  - ring.
  - rewrite IH, (IH (0 + x)). ring.
Qed.

Lemma sum_cons (x : R) (xs : list R) : sum (x :: xs) = x + sum xs.
Proof. unfold sum at 1; simpl. rewrite fold_left_Rplus. ring. Qed.

Lemma sum_nil : sum [] = 0.
Proof. reflexivity. Qed.

Lemma sum_nonneg (l : list R) : Forall (fun w => 0 <= w <= 1) l -> 0 <= sum l.
Proof.
  induction 1 as [|x xs Hx _ IH]; [rewrite sum_nil; lra|].
  rewrite sum_cons; lra.
Qed.

Lemma sum_zero_all_zero (l : list R) :
  Forall (fun w => 0 <= w <= 1) l -> sum l = 0 -> Forall (fun w => w = 0) l.
Proof.
  induction 1 as [|x xs Hx Hxs IH]; intros Hsum; constructor;
    rewrite sum_cons in Hsum; pose proof (sum_nonneg xs Hxs).
  - lra.
  - apply IH; lra.
Qed.




Lemma normalize_coeffs_zero_sum (l : list R) :
  sum l = 0 -> normalize_coeffs l = l.
Proof.
  intros Hs. unfold normalize_coeffs.
  destruct (Req_dec_T (sum l) 0) as [_|H]; [reflexivity | contradiction].
Qed.


(** ** The two-anchor scene *)

Lemma beyond_x_pos (p c1 c2 : Vector) :
  vy c2 = vy c1 -> vz c2 = vz c1 -> vx c1 < vx c2 ->
  beyond p c1 c2 = false <-> vx p <= vx c2.
Proof.
  intros Hy Hz Hx. rewrite beyond_false_iff.
  rewrite (normalized_x_pos (vsub c2 c1)) by (cbn; lra).
  unfold dot; cbn. lra.
Qed.

Lemma beyond_x_neg (p c1 c2 : Vector) :
  vy c2 = vy c1 -> vz c2 = vz c1 -> vx c2 < vx c1 ->
  beyond p c1 c2 = false <-> vx c2 <= vx p.
Proof.
  intros Hy Hz Hx. rewrite beyond_false_iff.
  rewrite (normalized_x_neg (vsub c2 c1)) by (cbn; lra).
  unfold dot; cbn. lra.
Qed.

Lemma boundary_fraction_x_pos (p c1 c2 : Vector) :
  vy c2 = vy c1 -> vz c2 = vz c1 -> vx c1 < vx c2 ->
  boundary_fraction p c1 c2 = Ok ((vx p - vx c1) / (vx c2 - vx c1)).
Proof.
  intros Hy Hz Hx. unfold boundary_fraction, truediv.
  rewrite (normalized_x_pos (vsub c2 c1)) by (cbn; lra).
  unfold dot; cbn.
  destruct (Req_dec_T _ 0) as [H|_]; [lra|].
  f_equal. field. lra.
Qed.

Lemma boundary_fraction_x_neg (p c1 c2 : Vector) :
  vy c2 = vy c1 -> vz c2 = vz c1 -> vx c2 < vx c1 ->
  boundary_fraction p c1 c2 = Ok ((vx c1 - vx p) / (vx c1 - vx c2)).
Proof.
  intros Hy Hz Hx. unfold boundary_fraction, truediv.
  rewrite (normalized_x_neg (vsub c2 c1)) by (cbn; lra).
  unfold dot; cbn.
  destruct (Req_dec_T _ 0) as [H|_]; [lra|].
  f_equal. field. lra.
Qed.

Lemma in_cell_two_anchors_0 (p : Vector) :
  in_cell p two_anchors 0 = Ok true <-> vx p <= 2.
Proof.
  rewrite (in_cell_true p two_anchors 0%nat anchor0) by reflexivity.
  rewrite <- (beyond_x_pos p (location anchor0) (location anchor1)) by (cbn; lra).
  split.
  - intros H. apply (H 1%nat anchor1); [discriminate | reflexivity].
  - intros H [|[|j]] second Hne Hs; [congruence | | destruct j; discriminate].
    inversion Hs; subst. exact H.
Qed.

Lemma in_cell_two_anchors_1 (p : Vector) :
  in_cell p two_anchors 1 = Ok true <-> 0 <= vx p.
Proof.
  rewrite (in_cell_true p two_anchors 1%nat anchor1) by reflexivity.
  rewrite <- (beyond_x_neg p (location anchor1) (location anchor0)) by (cbn; lra).
  split.
  - intros H. apply (H 0%nat anchor0); [discriminate | reflexivity].
  - intros H [|[|j]] second Hne Hs; [| congruence | destruct j; discriminate].
    inversion Hs; subst. exact H.
Qed.

Lemma in_cell_two_anchors_1_outside (p : Vector) :
  vx p < 0 -> in_cell p two_anchors 1 = Ok false.
Proof.
  intros Hp.
  apply (in_cell_false p two_anchors 1%nat anchor1); [reflexivity|].
  exists 0%nat, anchor0. split; [discriminate|]. split; [reflexivity|].
  destruct (beyond p (location anchor1) (location anchor0)) eqn:Hb; [reflexivity|].
  apply beyond_x_neg in Hb; cbn in *; lra.
Qed.

Lemma fraction_two_anchors_0 (p : Vector) :
  boundary_fraction p (location anchor0) (location anchor1) = Ok (vx p / 2).
Proof.
  rewrite boundary_fraction_x_pos by (cbn; lra). cbn. f_equal. field.
Qed.

Lemma fraction_two_anchors_1 (p : Vector) :
  boundary_fraction p (location anchor1) (location anchor0) = Ok ((2 - vx p) / 2).
Proof.
  rewrite boundary_fraction_x_neg by (cbn; lra). cbn. f_equal. field.
Qed.

Lemma cell_coeff_two_anchors_0 (p : Vector) :
  vx p <= 2 ->
  cell_coeff p two_anchors [[1%nat]; [0%nat]] 0
  = Ok (1 - smooth_function (vx p / 2)).
Proof.
  intros Hp.
  rewrite (cell_coeff_inside p _ _ 0%nat anchor0 [1%nat]);
    [|reflexivity | apply in_cell_two_anchors_0; exact Hp | reflexivity].
  cbn [boundary_loop two_anchors getitem nth_error bind].
  rewrite fraction_two_anchors_0. cbn [bind]. f_equal. ring.
Qed.

Lemma cell_coeff_two_anchors_1 (p : Vector) :
  0 <= vx p ->
  cell_coeff p two_anchors [[1%nat]; [0%nat]] 1
  = Ok (1 - smooth_function ((2 - vx p) / 2)).
Proof.
  intros Hp.
  rewrite (cell_coeff_inside p _ _ 1%nat anchor1 [0%nat]);
    [|reflexivity | apply in_cell_two_anchors_1; exact Hp | reflexivity].
  cbn [boundary_loop two_anchors getitem nth_error bind].
  rewrite fraction_two_anchors_1. cbn [bind]. f_equal. ring.
Qed.

Lemma raw_coeffs_midpoint :
  raw_coeffs (mkVector 1 0 0) two_anchors [[1%nat]; [0%nat]] = Ok [1 / 2; 1 / 2].
Proof.
  unfold raw_coeffs. cbn [two_anchors length seq mapM].
  rewrite cell_coeff_two_anchors_0, cell_coeff_two_anchors_1 by (cbn; lra).
  cbn [bind vx].
  replace ((2 - 1) / 2) with (1 / 2) by field.
  rewrite smooth_function_half.
  replace (1 - 1 / 2) with (1 / 2) by field.
  reflexivity.
Qed.

Lemma normalize_halves : normalize_coeffs [1 / 2; 1 / 2] = [1 / 2; 1 / 2].
Proof.
  unfold normalize_coeffs.
  assert (Hs : sum [1 / 2; 1 / 2] = 1) by (rewrite !sum_cons, sum_nil; field).
  rewrite Hs. destruct (Req_dec_T 1 0) as [H|_]; [lra|].
  cbn [map]. f_equal; [field | f_equal; field].
Qed.

Lemma displaced_anchor0 (p : Vector) :
  displaced_in_world identity p anchor0 = Ok (mkVector (vx p) (vy p + 1) (vz p)).
Proof.
  unfold displaced_in_world.
  cbn [anchor0 children matrix_world getitem nth_error bind child_matrix_world].
  rewrite inverted_Translation. cbn [bind].
  rewrite matmul_identity_r, !matvec_Translation.
  f_equal. apply Vector_ext; cbn; ring.
Qed.

Lemma displaced_anchor1 (p : Vector) :
  displaced_in_world identity p anchor1 = Ok (mkVector (vx p) (vy p - 1) (vz p)).
Proof.
  unfold displaced_in_world.
  cbn [anchor1 children matrix_world getitem nth_error bind child_matrix_world].
  rewrite inverted_Translation. cbn [bind].
  rewrite matmul_identity_r, !matvec_Translation.
  f_equal. apply Vector_ext; cbn; ring.
Qed.

Lemma blend_two_anchors (p : Vector) (c0 c1 : R) :
  blend identity p two_anchors [c0; c1]
  = Ok (mkVector (c0 * vx p + c1 * vx p)
                 (c0 * (vy p + 1) + c1 * (vy p - 1))
                 (c0 * vz p + c1 * vz p)).
Proof.
  unfold blend.
  cbn [two_anchors length seq displacement_loop getitem nth_error bind].
  rewrite displaced_anchor0. cbn [bind].
  rewrite displaced_anchor1. cbn [bind].
  f_equal. apply Vector_ext; cbn; ring.
Qed.

Lemma displace_point_midpoint :
  displace_point identity identity two_anchors [[1%nat]; [0%nat]] (mkVector 1 0 0)
  = Ok (mkVector 1 0 0).
Proof.
  unfold displace_point. rewrite matvec_identity, raw_coeffs_midpoint. cbn [bind].
  rewrite normalize_halves, blend_two_anchors. cbn [bind].
  rewrite matvec_identity. f_equal. apply Vector_ext; cbn; field.
Qed.

(** C3.  In the two-anchor scene the point [(1,0,0)] passes the membership
    test of both anchors, has fraction 0.5 against each boundary, raw weight
    [1 - smooth_function 0.5 = 0.5] for each anchor, normalized influence 0.5
    each, and the script leaves it at exactly [(1,0,0)]. *)
Theorem two_anchor_midpoint
    (Delaunay : list Vector -> result (list nat * list nat)) :
  let p := mkVector 1 0 0 in
  build_neighbors Delaunay two_anchors = Ok [[1%nat]; [0%nat]] /\
  in_cell p two_anchors 0 = Ok true /\
  in_cell p two_anchors 1 = Ok true /\
  boundary_fraction p (location anchor0) (location anchor1) = Ok (1 / 2) /\
  boundary_fraction p (location anchor1) (location anchor0) = Ok (1 / 2) /\
  1 - smooth_function (1 / 2) = 1 / 2 /\
  raw_coeffs p two_anchors [[1%nat]; [0%nat]] = Ok [1 / 2; 1 / 2] /\
  normalize_coeffs [1 / 2; 1 / 2] = [1 / 2; 1 / 2] /\
  script Delaunay (two_anchor_scene [p]) = mkOutcome [mkVector 1 0 0] None.
Proof.
  intros p.
  split; [apply two_neighbors|].
  split; [apply in_cell_two_anchors_0; cbn; lra|].
  split; [apply in_cell_two_anchors_1; cbn; lra|].
  split; [rewrite fraction_two_anchors_0; cbn; reflexivity|].
  split; [rewrite fraction_two_anchors_1; cbn; f_equal; field|].
  split; [rewrite smooth_function_half; field|].
  split; [apply raw_coeffs_midpoint|].
  split; [apply normalize_halves|].
  unfold script, setup, two_anchor_scene.
  cbn [cloud_matrix_world collection vertices].
  rewrite inverted_identity. cbn [bind].
  change (select_anchors two_anchors) with two_anchors.
  rewrite (two_neighbors Delaunay anchor0 anchor1
           : build_neighbors Delaunay two_anchors = _).
  cbn [bind point_loop].
  unfold p. rewrite displace_point_midpoint. reflexivity.
Qed.


Lemma neighbors_complete_graph_witness :
  exists neighbors : list (list nat),
    build_neighbors failing_Delaunay two_anchors = Ok neighbors /\
    length neighbors = 2%nat /\
    forall k : nat, (k < 2)%nat ->
      exists nbrs : list nat,
        nth_error neighbors k = Some nbrs /\
        NoDup nbrs /\
        forall j : nat, In j nbrs <-> (j < 2)%nat /\ j <> k.
Proof.
  apply (neighbors_complete_graph failing_Delaunay two_anchors).
  simpl. lia.
Defined.

Lemma cell_membership_boundary_inclusive_witness :
  in_cell (mkVector 2 0 0) two_anchors 0 = Ok true /\
  in_cell (mkVector 3 0 0) two_anchors 0 = Ok false.
Proof.
  split.
  - apply (cell_membership_boundary_inclusive (mkVector 2 0 0) two_anchors 0%nat
             anchor0 eq_refl).
    intros [|[|j]] second Hne Hs; [congruence | | destruct j; discriminate].
    inversion Hs; subst.
    rewrite (normalized_x_pos (vsub (location anchor1) (location anchor0)))
      by (cbn; lra).
    unfold dot; cbn. lra.
  - apply (cell_membership_boundary_inclusive (mkVector 3 0 0) two_anchors 0%nat
             anchor0 eq_refl).
    exists 1%nat, anchor1. split; [discriminate|]. split; [reflexivity|].
    rewrite (normalized_x_pos (vsub (location anchor1) (location anchor0)))
      by (cbn; lra).
    unfold dot; cbn. lra.
Defined.

Lemma has_handle_two_anchors : Forall has_handle two_anchors.
Proof.
  repeat constructor; cbn [anchor0 anchor1 children matrix_world];
    try discriminate; rewrite determinant_Translation; lra.
Qed.

(** ** Blending *)

Lemma displaced_in_world_Ok (cloud_mw : Matrix) (p : Vector) (anchor : Object) :
  has_handle anchor -> exists d, displaced_in_world cloud_mw p anchor = Ok d.
Proof.
  intros [Hc Hd]. unfold displaced_in_world, inverted.
  destruct (children anchor) as [|end_ rest]; [contradiction|].
  cbn [getitem nth_error bind].
  destruct (Req_dec_T _ 0) as [H|_]; [contradiction|].
  cbn [bind]. eauto.
Qed.

Lemma vadd_vscale_0 (acc d : Vector) : vadd acc (vscale 0 d) = acc.
Proof. apply Vector_ext; cbn; ring. Qed.

Lemma vadd_vscale_1 (d : Vector) : vadd vzero (vscale 1 d) = d.
Proof. apply Vector_ext; cbn; ring. Qed.

(** Rounds whose coefficient is 0 leave the accumulator as it is. *)
Lemma displacement_loop_zero (cloud_mw : Matrix) (p : Vector)
    (anchors : list Object) (coeffs : list R) (acc : Vector) (indices : list nat) :
  Forall has_handle anchors ->
  (forall k, In k indices ->
     (k < length anchors)%nat /\ nth_error coeffs k = Some 0) ->
  displacement_loop cloud_mw p anchors coeffs acc indices = Ok acc.
Proof.
  intros Hwf. induction indices as [|k rest IH]; intros Hk; simpl; [reflexivity|].
  destruct (Hk k (or_introl eq_refl)) as [Hlt Hc].
  destruct (nth_error anchors k) as [a|] eqn:Ha;
    [|apply nth_error_None in Ha; lia].
  rewrite (getitem_Some _ _ _ Ha); simpl.
  rewrite Forall_forall in Hwf.
  destruct (displaced_in_world_Ok cloud_mw p a) as [d Hd];
    [apply Hwf; eapply nth_error_In; eauto|].
  rewrite Hd; simpl. rewrite (getitem_Some _ _ _ Hc); simpl.
  rewrite vadd_vscale_0. apply IH.
  intros k' Hk'; apply Hk; right; exact Hk'.
Qed.

Lemma nth_error_all_zero (l : list R) (k : nat) :
  Forall (fun w => w = 0) l -> (k < length l)%nat -> nth_error l k = Some 0.
Proof.
  intros Hall Hk. destruct (nth_error l k) as [w|] eqn:Hw;
    [|apply nth_error_None in Hw; lia].
  rewrite Forall_forall in Hall. f_equal. apply Hall. eapply nth_error_In; eauto.
Qed.

Lemma blend_all_zero (cloud_mw : Matrix) (p : Vector) (anchors : list Object)
    (coeffs : list R) :
  Forall has_handle anchors ->
  length coeffs = length anchors ->
  Forall (fun w => w = 0) coeffs ->
  blend cloud_mw p anchors coeffs = Ok vzero.
Proof.
  intros Hwf Hlen Hall. unfold blend. apply displacement_loop_zero; [exact Hwf|].
  intros k Hk. apply in_seq in Hk.
  split; [lia|]. apply nth_error_all_zero; [exact Hall | lia].
Qed.

(** C1 (amended).  A point whose raw influence weights sum to exactly zero is
    not left where it was.  Lines 99-115, run on weights between 0 and 1
    that sum to zero, skip the normalization and blend to the zero vector;
    the new position of the point is [matrix_cloud_to_world @ (0,0,0)], the
    image of the world origin in the space of the deformed object. *)
Theorem zero_sum_point_moves_to_origin
    (cloud_mw matrix_cloud_to_world : Matrix) (anchors : list Object)
    (p : Vector) (influence_coeffs : list R) :
  Forall has_handle anchors ->
  length influence_coeffs = length anchors ->
  Forall (fun w => 0 <= w <= 1) influence_coeffs ->
  sum influence_coeffs = 0 ->
  normalize_coeffs influence_coeffs = influence_coeffs /\
  blend cloud_mw p anchors (normalize_coeffs influence_coeffs) = Ok vzero /\
  (forall neighbors : list (list nat),
     raw_coeffs (matvec cloud_mw p) anchors neighbors = Ok influence_coeffs ->
     displace_point cloud_mw matrix_cloud_to_world anchors neighbors p
     = Ok (matvec matrix_cloud_to_world vzero)).
Proof.
  intros Hwf Hlen Hrange Hsum.
  pose proof (sum_zero_all_zero _ Hrange Hsum) as Hall.
  pose proof (normalize_coeffs_zero_sum _ Hsum) as Hnorm.
  assert (Hblend : blend cloud_mw p anchors (normalize_coeffs influence_coeffs)
                   = Ok vzero)
    by (rewrite Hnorm; apply blend_all_zero; auto).
  split; [exact Hnorm|]. split; [exact Hblend|].
  intros neighbors Hraw.
  unfold displace_point. rewrite Hraw; cbn [bind]. rewrite Hblend. reflexivity.
Qed.

(** ** No anchors *)

Lemma displace_point_no_anchor (cloud_mw m : Matrix) (neighbors : list (list nat))
    (p : Vector) :
  displace_point cloud_mw m [] neighbors p = Ok (matvec m vzero).
Proof.
  unfold displace_point, raw_coeffs. cbn [length seq mapM bind].
  rewrite normalize_coeffs_zero_sum by reflexivity. reflexivity.
Qed.

Lemma point_loop_no_anchor (cloud_mw m : Matrix) (neighbors : list (list nat))
    (points : list Vector) :
  point_loop cloud_mw m [] neighbors points
  = mkOutcome (map (fun _ => matvec m vzero) points) None.
Proof.
  induction points as [|p rest IH]; cbn [point_loop map]; [reflexivity|].
  rewrite displace_point_no_anchor, IH. reflexivity.
Qed.

Lemma script_empty_scene (p : Vector) :
  script failing_Delaunay (empty_scene [p]) = mkOutcome [vzero] None.
Proof.
  unfold script, setup, empty_scene.
  cbn [cloud_matrix_world collection vertices select_anchors filter].
  rewrite inverted_identity. cbn [bind].
  rewrite build_neighbors_fallback by (unfold DELAUNAY_MINIMUM_POINTS; simpl; lia).
  cbn [length seq map bind]. rewrite point_loop_no_anchor.
  cbn [map]. rewrite matvec_identity. reflexivity.
Qed.

Lemma vzero_neq_123 : vzero <> mkVector 1 2 3.
Proof. intros H. apply (f_equal vx) in H. cbn in H. lra. Qed.

Lemma zero_sum_point_moves_to_origin_witness :
  blend identity (mkVector 1 2 3) two_anchors (normalize_coeffs [0; 0]) = Ok vzero /\
  displace_point identity identity [] [] (mkVector 1 2 3)
  = Ok (matvec identity vzero).
Proof.
  split.
  - apply (zero_sum_point_moves_to_origin identity identity two_anchors
             (mkVector 1 2 3) [0; 0]).
    + apply has_handle_two_anchors.
    + reflexivity.
    + repeat constructor; lra.
    + rewrite !sum_cons, sum_nil. lra.
  - apply (zero_sum_point_moves_to_origin identity identity []
             (mkVector 1 2 3) []).
    + constructor.
    + reflexivity.
    + constructor.
    + reflexivity.
    + reflexivity.
Defined.

(** C1, as stated, fails: with no anchor the raw weights of the point
    [(1,2,3)] sum to zero, and the script moves the point to the origin. *)
Lemma zero_sum_counterexample :
  raw_coeffs (matvec identity (mkVector 1 2 3)) [] [] = Ok [] /\
  sum [] = 0 /\
  script failing_Delaunay (empty_scene [mkVector 1 2 3]) = mkOutcome [vzero] None /\
  vzero <> mkVector 1 2 3.
Proof.
  split; [reflexivity|]. split; [reflexivity|].
  split; [apply script_empty_scene | apply vzero_neq_123].
Qed.

(** C8 (amended).  An empty anchor list is not rejected: provided the world
    matrix of the deformed object can be inverted, the script raises nothing,
    runs the loop over the points and writes the image of the world origin,
    [matrix_cloud_to_world @ (0,0,0)], to every point. *)
Theorem empty_anchor_list_runs_point_loop
    (Delaunay : list Vector -> result (list nat * list nat)) (s : Scene)
    (matrix_cloud_to_world : Matrix) :
  select_anchors (collection s) = [] ->
  inverted (cloud_matrix_world s) = Ok matrix_cloud_to_world ->
  script Delaunay s
  = mkOutcome (map (fun _ => matvec matrix_cloud_to_world vzero) (vertices s)) None.
Proof.
  intros Hempty Hinv. unfold script, setup.
  rewrite Hinv, Hempty. cbn [bind].
  rewrite build_neighbors_fallback by (unfold DELAUNAY_MINIMUM_POINTS; simpl; lia).
  cbn [length seq map bind]. apply point_loop_no_anchor.
Qed.

Lemma empty_anchor_list_runs_point_loop_witness :
  script failing_Delaunay (empty_scene [mkVector 1 2 3; mkVector 4 5 6])
  = mkOutcome [matvec identity vzero; matvec identity vzero] None.
Proof.
  apply (empty_anchor_list_runs_point_loop failing_Delaunay
           (empty_scene [mkVector 1 2 3; mkVector 4 5 6]) identity).
  - reflexivity.
  - apply inverted_identity.
Defined.

(** C8, as stated, fails: with an empty anchor list the script raises no
    exception and the loop over the points runs, moving the point. *)
Lemma empty_anchor_list_counterexample :
  raised (script failing_Delaunay (empty_scene [mkVector 1 2 3])) = None /\
  vertices_after (script failing_Delaunay (empty_scene [mkVector 1 2 3])) = [vzero] /\
  vzero <> mkVector 1 2 3.
Proof.
  rewrite script_empty_scene.
  split; [reflexivity|]. split; [reflexivity | apply vzero_neq_123].
Qed.

(** ** A point deep inside a single cell *)

Lemma boundary_loop_nonpos (p fc : Vector) (anchors : list Object)
    (nbrs : list nat) (coeff : R) :
  (forall j, In j nbrs ->
     exists second f, nth_error anchors j = Some second /\
       boundary_fraction p fc (location second) = Ok f /\ f <= 0) ->
  boundary_loop p fc anchors coeff nbrs = Ok coeff.
Proof.
  revert coeff; induction nbrs as [|j rest IH]; intros coeff H; simpl; [reflexivity|].
  destruct (H j (or_introl eq_refl)) as (second & f & Hs & Hf & Hle).
  rewrite (getitem_Some _ _ _ Hs); simpl. rewrite Hf; simpl.
  rewrite smooth_function_nonpos by exact Hle.
  replace (coeff * (1 - 0)) with coeff by ring.
  apply IH. intros j' Hj'; apply H; right; exact Hj'.
Qed.

Lemma nth_error_indicator (n i k : nat) :
  (k < n)%nat -> nth_error (indicator n i) k = Some (if Nat.eqb k i then 1 else 0).
Proof.
  intros Hk. unfold indicator. rewrite nth_error_map, nth_error_seq.
  destruct (Nat.ltb_spec k n) as [_|H]; [reflexivity | lia].
Qed.

Lemma sum_indicator_from (i start len : nat) :
  sum (map (fun k => if Nat.eqb k i then 1 else 0) (seq start len))
  = if (start <=? i)%nat && (i <? start + len)%nat then 1 else 0.
Proof.
  revert start; induction len as [|len IH]; intros start.
  - cbn [seq map]. rewrite sum_nil.
    destruct (Nat.leb_spec start i), (Nat.ltb_spec i (start + 0)); simpl; auto; lia.
  - cbn [seq map]. rewrite sum_cons, IH.
    destruct (Nat.eqb_spec start i), (Nat.leb_spec start i),
      (Nat.leb_spec (S start) i), (Nat.ltb_spec i (S start + len)),
      (Nat.ltb_spec i (start + S len)); simpl; try lia; ring.
Qed.

Lemma sum_indicator (n i : nat) : (i < n)%nat -> sum (indicator n i) = 1.
Proof.
  intros Hi. unfold indicator. rewrite sum_indicator_from.
  destruct (Nat.ltb_spec i (0 + n)) as [_|H]; [reflexivity | lia].
Qed.

Lemma normalize_indicator (n i : nat) :
  (i < n)%nat -> normalize_coeffs (indicator n i) = indicator n i.
Proof.
  intros Hi. unfold normalize_coeffs. rewrite (sum_indicator n i Hi).
  destruct (Req_dec_T 1 0) as [H|_]; [lra|].
  rewrite <- (map_id (indicator n i)) at 2.
  apply map_ext. intros a. field.
Qed.

Lemma raw_coeffs_indicator (p : Vector) (anchors : list Object)
    (neighbors : list (list nat)) (i : nat) (anchor : Object) (nbrs : list nat) :
  nth_error anchors i = Some anchor ->
  nth_error neighbors i = Some nbrs ->
  in_cell p anchors i = Ok true ->
  (forall k, (k < length anchors)%nat -> k <> i -> in_cell p anchors k = Ok false) ->
  (forall j, In j nbrs ->
     exists second f, nth_error anchors j = Some second /\
       boundary_fraction p (location anchor) (location second) = Ok f /\ f <= 0) ->
  raw_coeffs p anchors neighbors = Ok (indicator (length anchors) i).
Proof.
  intros Hi Hn Hin Hout Hfr. unfold raw_coeffs, indicator.
  apply mapM_pure. intros k Hk. apply in_seq in Hk.
  destruct (Nat.eqb_spec k i) as [->|Hne].
  - rewrite (cell_coeff_inside _ _ _ _ _ _ Hi Hin Hn).
    apply boundary_loop_nonpos. exact Hfr.
  - apply cell_coeff_outside. apply Hout; [lia | exact Hne].
Qed.

(** With the weights of [indicator], the loop adds the displaced position of
    anchor [i] when it comes to [i] and nothing otherwise. *)
Lemma displacement_loop_indicator (cloud_mw : Matrix) (p : Vector)
    (anchors : list Object) (i : nat) (anchor : Object) (d : Vector)
    (len start : nat) (acc : Vector) :
  Forall has_handle anchors ->
  nth_error anchors i = Some anchor ->
  displaced_in_world cloud_mw p anchor = Ok d ->
  (start + len <= length anchors)%nat ->
  displacement_loop cloud_mw p anchors (indicator (length anchors) i) acc
    (seq start len)
  = Ok (if (start <=? i)%nat && (i <? start + len)%nat
        then vadd acc (vscale 1 d) else acc).
Proof.
  intros Hwf Hi Hd. revert start acc; induction len as [|len IH]; intros start acc Hle.
  - cbn [seq displacement_loop].
    destruct (Nat.leb_spec start i), (Nat.ltb_spec i (start + 0)); simpl; auto; lia.
  - cbn [seq displacement_loop].
    destruct (nth_error anchors start) as [a|] eqn:Ha;
      [|apply nth_error_None in Ha; lia].
    rewrite (getitem_Some _ _ _ Ha); cbn [bind].
    assert (Hc : getitem (indicator (length anchors) i) start
                 = Ok (if Nat.eqb start i then 1 else 0))
      by (apply getitem_Some, nth_error_indicator; lia).
    destruct (Nat.eqb_spec start i) as [->|Hne].
    + assert (a = anchor) by congruence; subst a.
      rewrite Hd; cbn [bind]. rewrite Hc; cbn [bind].
      rewrite IH by lia.
      destruct (Nat.leb_spec (S i) i), (Nat.leb_spec i i),
        (Nat.ltb_spec i (i + S len)); simpl; try lia; reflexivity.
    + rewrite Forall_forall in Hwf.
      destruct (displaced_in_world_Ok cloud_mw p a) as [d' Hd'];
        [apply Hwf; eapply nth_error_In; eauto|].
      rewrite Hd'; cbn [bind]. rewrite Hc; cbn [bind].
      rewrite vadd_vscale_0, IH by lia.
      destruct (Nat.leb_spec start i), (Nat.leb_spec (S start) i),
        (Nat.ltb_spec i (S start + len)), (Nat.ltb_spec i (start + S len));
        simpl; try lia; reflexivity.
Qed.

Lemma blend_indicator (cloud_mw : Matrix) (p : Vector) (anchors : list Object)
    (i : nat) (anchor : Object) (d : Vector) :
  Forall has_handle anchors ->
  nth_error anchors i = Some anchor ->
  displaced_in_world cloud_mw p anchor = Ok d ->
  blend cloud_mw p anchors (indicator (length anchors) i) = Ok d.
Proof.
  intros Hwf Hi Hd. unfold blend.
  rewrite (displacement_loop_indicator _ _ _ _ _ _ _ _ _ Hwf Hi Hd) by lia.
  assert (Hlt : (i < length anchors)%nat) by (apply nth_error_Some; congruence).
  destruct (Nat.ltb_spec i (0 + length anchors)) as [_|H]; [|lia].
  cbn [Nat.leb andb]. rewrite vadd_vscale_1. reflexivity.
Qed.

(** C5.  For a point inside the cell of exactly one anchor, with every
    fraction against that anchor's neighbours at most 0, the normalized
    influence of that anchor is exactly 1 and that of every other anchor is
    exactly 0; the blended world-space position is the handle's matrix
    applied to the point expressed in the anchor's frame, and that is what
    is written back (through [matrix_cloud_to_world]). *)
Theorem sole_cell_takes_all
    (cloud_mw matrix_cloud_to_world : Matrix) (anchors : list Object)
    (neighbors : list (list nat)) (p : Vector) (i : nat) (anchor : Object)
    (nbrs : list nat) :
  let point_in_world := matvec cloud_mw p in
  nth_error anchors i = Some anchor ->
  nth_error neighbors i = Some nbrs ->
  Forall has_handle anchors ->
  in_cell point_in_world anchors i = Ok true ->
  (forall k, (k < length anchors)%nat -> k <> i ->
     in_cell point_in_world anchors k = Ok false) ->
  (forall j, In j nbrs ->
     exists second f, nth_error anchors j = Some second /\
       boundary_fraction point_in_world (location anchor) (location second) = Ok f /\
       f <= 0) ->
  exists (raw : list R) (end_ : Child) (anchor_inv : Matrix),
    raw_coeffs point_in_world anchors neighbors = Ok raw /\
    nth_error (normalize_coeffs raw) i = Some 1 /\
    (forall k, (k < length anchors)%nat -> k <> i ->
       nth_error (normalize_coeffs raw) k = Some 0) /\
    nth_error (children anchor) 0 = Some end_ /\
    inverted (matrix_world anchor) = Ok anchor_inv /\
    let displaced :=
      matvec (child_matrix_world end_) (matvec (matmul anchor_inv cloud_mw) p) in
    blend cloud_mw p anchors (normalize_coeffs raw) = Ok displaced /\
    displace_point cloud_mw matrix_cloud_to_world anchors neighbors p
    = Ok (matvec matrix_cloud_to_world displaced).
Proof.
  intros piw Hi Hn Hwf Hin Hout Hfr.
  assert (Hlt : (i < length anchors)%nat) by (apply nth_error_Some; congruence).
  pose proof (raw_coeffs_indicator _ _ _ _ _ _ Hi Hn Hin Hout Hfr) as Hraw.
  assert (Hh : has_handle anchor)
    by (rewrite Forall_forall in Hwf; apply Hwf; eapply nth_error_In; eauto).
  destruct (displaced_in_world_Ok cloud_mw p anchor Hh) as [d Hd].
  pose proof (blend_indicator _ _ _ _ _ _ Hwf Hi Hd) as Hblend.
  unfold displaced_in_world in Hd.
  destruct (children anchor) as [|end_ rest] eqn:Hc; [discriminate|].
  cbn [getitem nth_error bind] in Hd.
  destruct (inverted (matrix_world anchor)) as [anchor_inv|e] eqn:Hinv;
    [|discriminate].
  cbn [bind] in Hd. injection Hd as Hd.
  exists (indicator (length anchors) i), end_, anchor_inv.
  rewrite (normalize_indicator _ _ Hlt).
  split; [exact Hraw|].
  split; [rewrite nth_error_indicator, Nat.eqb_refl by exact Hlt; reflexivity|].
  split.
  { intros k Hk Hne. rewrite nth_error_indicator by exact Hk.
    destruct (Nat.eqb_spec k i); [contradiction | reflexivity]. }
  split; [reflexivity|]. split; [reflexivity|].
  cbv zeta. rewrite Hd.
  split; [exact Hblend|].
  unfold displace_point. fold piw. rewrite Hraw; cbn [bind].
  rewrite (normalize_indicator _ _ Hlt), Hblend. reflexivity.
Qed.

Lemma sole_cell_takes_all_witness :
  exists (raw : list R) (end_ : Child) (anchor_inv : Matrix),
    raw_coeffs (matvec identity (mkVector (-1) 0 0)) two_anchors
      [[1%nat]; [0%nat]] = Ok raw /\
    nth_error (normalize_coeffs raw) 0 = Some 1 /\
    (forall k, (k < 2)%nat -> k <> 0%nat ->
       nth_error (normalize_coeffs raw) k = Some 0) /\
    nth_error (children anchor0) 0 = Some end_ /\
    inverted (matrix_world anchor0) = Ok anchor_inv /\
    let displaced :=
      matvec (child_matrix_world end_)
             (matvec (matmul anchor_inv identity) (mkVector (-1) 0 0)) in
    blend identity (mkVector (-1) 0 0) two_anchors (normalize_coeffs raw)
    = Ok displaced /\
    displace_point identity identity two_anchors [[1%nat]; [0%nat]]
      (mkVector (-1) 0 0)
    = Ok (matvec identity displaced).
Proof.
  apply (sole_cell_takes_all identity identity two_anchors [[1%nat]; [0%nat]]
           (mkVector (-1) 0 0) 0%nat anchor0 [1%nat]).
  - reflexivity.
  - reflexivity.
  - apply has_handle_two_anchors.
  - rewrite matvec_identity. apply in_cell_two_anchors_0. cbn. lra.
  - intros [|[|k]] Hk Hne; [congruence | | simpl in Hk; lia].
    rewrite matvec_identity. apply in_cell_two_anchors_1_outside. cbn. lra.
  - intros j [<-|[]]. exists anchor1, (-1 / 2). split; [reflexivity|].
    split; [|lra].
    rewrite matvec_identity, fraction_two_anchors_0. cbn. reflexivity.
Defined.

(** ** The cell of the nearest anchor

    In exact arithmetic the point always lies in the cell of an anchor
    nearest to it, strictly before every boundary of that cell, so as soon
    as there is an anchor the raw weights cannot all vanish. *)

Lemma dist2_expand (p c1 c2 : Vector) :
  dist2 p c1
  = dist2 p c2 + 2 * dot (vsub p c2) (vsub c2 c1) + dot (vsub c2 c1) (vsub c2 c1).
Proof. unfold dist2, dot, vsub; cbn; ring. Qed.


Lemma beyond_nearest (p c1 c2 : Vector) :
  dist2 p c1 <= dist2 p c2 -> beyond p c1 c2 = false.
Proof.
  intros Hle. apply beyond_false_iff. unfold normalized.
  pose proof (dist2_expand p c1 c2) as He.
  pose proof (dot_self_nonneg (vsub c2 c1)) as Hdd.
  destruct (Rlt_dec 0 (dot (vsub c2 c1) (vsub c2 c1))) as [Hpos|_].
  - pose proof (sqrt_lt_R0 _ Hpos) as Hs.
    set (s := sqrt (dot (vsub c2 c1) (vsub c2 c1))) in *.
    assert (Hk : dot p (vscale (/ s) (vsub c2 c1)) - dot c2 (vscale (/ s) (vsub c2 c1))
                 = / s * dot (vsub p c2) (vsub c2 c1))
      by (unfold dot, vscale, vsub; cbn; ring).
    assert (Hinv : 0 < / s) by (apply Rinv_0_lt_compat; exact Hs).
    assert (Hx : dot (vsub p c2) (vsub c2 c1) <= 0) by lra.
    assert (/ s * dot (vsub p c2) (vsub c2 c1) <= 0) by nra.
    lra.
  - rewrite !dot_vzero_r. lra.
Qed.







(** * Further properties of the script *)

(** ** The tests without the normalization

    The unit normal is only used in quotients and comparisons where its
    length cancels: both tests can be read on the plain difference of the
    two anchors. *)

Lemma distinct_gap_pos (c1 c2 : Vector) :
  c2 <> c1 -> 0 < dot (vsub c2 c1) (vsub c2 c1).
Proof.
  intros Hne. pose proof (dot_self_nonneg (vsub c2 c1)) as H.
  destruct (Req_dec_T (dot (vsub c2 c1) (vsub c2 c1)) 0) as [H0|H0]; [|lra].
  exfalso. apply Hne. apply dot_self_zero in H0.
  apply Vector_ext; apply (f_equal vx) in H0 as Hx; apply (f_equal vy) in H0 as Hy;
    apply (f_equal vz) in H0 as Hz; cbn in Hx, Hy, Hz; lra.
Qed.


Lemma boundary_fraction_closed (p c1 c2 : Vector) :
  c2 <> c1 ->
  boundary_fraction p c1 c2
  = Ok (dot (vsub p c1) (vsub c2 c1) / dot (vsub c2 c1) (vsub c2 c1)).
Proof.
  intros Hne. pose proof (distinct_gap_pos _ _ Hne) as Hpos.
  unfold boundary_fraction, truediv.
  rewrite (thresholds_gap _ _ Hpos).
  pose proof (sqrt_lt_R0 _ Hpos) as Hs.
  pose proof (sqrt_sqrt _ (Rlt_le _ _ Hpos)) as Hsq.
  destruct (Req_dec_T _ 0) as [H0|_]; [lra|].
  f_equal. unfold normalized.
  destruct (Rlt_dec 0 (dot (vsub c2 c1) (vsub c2 c1))) as [_|Hc]; [|contradiction].
  set (s := sqrt (dot (vsub c2 c1) (vsub c2 c1))) in *.
  assert (Hk : dot p (vscale (/ s) (vsub c2 c1)) - dot c1 (vscale (/ s) (vsub c2 c1))
               = / s * dot (vsub p c1) (vsub c2 c1))
    by (unfold dot, vscale, vsub; cbn; ring).
  rewrite Hk, <- Hsq. field. lra.
Qed.



Lemma beyond_closed (p c1 c2 : Vector) :
  beyond p c1 c2 = true <-> 0 < dot (vsub p c2) (vsub c2 c1).
Proof.
  rewrite beyond_true_iff. unfold normalized.
  destruct (Rlt_dec 0 (dot (vsub c2 c1) (vsub c2 c1))) as [Hpos|Hn].
  - pose proof (sqrt_lt_R0 _ Hpos) as Hs.
    set (s := sqrt (dot (vsub c2 c1) (vsub c2 c1))) in *.
    assert (Hk : dot p (vscale (/ s) (vsub c2 c1)) - dot c2 (vscale (/ s) (vsub c2 c1))
                 = / s * dot (vsub p c2) (vsub c2 c1))
      by (unfold dot, vscale, vsub; cbn; ring).
    assert (Hinv : 0 < / s) by (apply Rinv_0_lt_compat; exact Hs).
    split; intros H.
    + assert (0 < / s * dot (vsub p c2) (vsub c2 c1)) by lra.
      destruct (Rlt_dec 0 (dot (vsub p c2) (vsub c2 c1))) as [Hx|Hx]; [exact Hx|].
      exfalso. assert (/ s * dot (vsub p c2) (vsub c2 c1) <= 0) by nra. lra.
    + assert (0 < / s * dot (vsub p c2) (vsub c2 c1))
        by (apply Rmult_lt_0_compat; assumption).
      lra.
  - rewrite !dot_vzero_r.
    assert (H0 : dot (vsub c2 c1) (vsub c2 c1) = 0)
      by (pose proof (dot_self_nonneg (vsub c2 c1)); lra).
    apply dot_self_zero in H0. rewrite H0, dot_vzero_r. lra.
Qed.


(** X3.  The two tests agree: against a distinct anchor, the point passes the
    half-space test exactly when its fraction is at most 1.  Inside a cell
    no fraction exceeds 1. *)
Theorem beyond_iff_fraction_above_1 (p c1 c2 : Vector) (f : R) :
  boundary_fraction p c1 c2 = Ok f ->
  beyond p c1 c2 = true <-> 1 < f.
Proof.
  intros Hf.
  assert (Hne : c2 <> c1).
  { intros ->. rewrite boundary_fraction_coincident in Hf. discriminate. }
  rewrite (boundary_fraction_closed _ _ _ Hne) in Hf. injection Hf as <-.
  pose proof (distinct_gap_pos _ _ Hne) as Hpos.
  rewrite beyond_closed.
  set (dd := dot (vsub c2 c1) (vsub c2 c1)) in *.
  assert (He : dot (vsub p c1) (vsub c2 c1) = dot (vsub p c2) (vsub c2 c1) + dd)
    by (unfold dd, dot, vsub; cbn; ring).
  rewrite He.
  assert (Hr : (dot (vsub p c2) (vsub c2 c1) + dd) / dd
               = 1 + dot (vsub p c2) (vsub c2 c1) * / dd) by (field; lra).
  rewrite Hr.
  assert (Hinv : 0 < / dd) by (apply Rinv_0_lt_compat; exact Hpos).
  split; intros H.
  - assert (0 < dot (vsub p c2) (vsub c2 c1) * / dd)
      by (apply Rmult_lt_0_compat; assumption).
    lra.
  - destruct (Rlt_dec 0 (dot (vsub p c2) (vsub c2 c1))) as [Hx|Hx]; [exact Hx|].
    exfalso. assert (dot (vsub p c2) (vsub c2 c1) * / dd <= 0) by nra. lra.
Qed.

Lemma beyond_iff_fraction_above_1_witness :
  beyond (mkVector 3 0 0) (location anchor0) (location anchor1) = true <-> 1 < 3 / 2.
Proof.
  apply (beyond_iff_fraction_above_1 (mkVector 3 0 0) (location anchor0)
           (location anchor1) (3 / 2)).
  rewrite fraction_two_anchors_0. reflexivity.
Defined.

(** ** Cells cover the space *)

(** X4.  Whatever the anchors, the point lies in the cell of any anchor nearest
    to it. *)
Theorem nearest_anchor_cell_contains_point
    (p : Vector) (anchors : list Object) (i : nat) (a : Object) :
  nth_error anchors i = Some a ->
  (forall b, In b anchors -> dist2 p (location a) <= dist2 p (location b)) ->
  in_cell p anchors i = Ok true.
Proof.
  intros Hi Hmin. apply (in_cell_true p anchors i a Hi).
  intros j second _ Hs. apply beyond_nearest, Hmin. eapply nth_error_In; eauto.
Qed.

Lemma nearest_anchor_cell_contains_point_witness :
  in_cell (mkVector (1 / 2) 3 4) two_anchors 0 = Ok true.
Proof.
  apply (nearest_anchor_cell_contains_point (mkVector (1 / 2) 3 4) two_anchors
           0%nat anchor0 eq_refl).
  intros b [<-|[<-|[]]]; unfold dist2, dot, vsub; cbn; lra.
Defined.

(** ** Weights *)








(** ** The loop over the points *)

Lemma point_loop_all_ok (cloud_mw m : Matrix) (anchors : list Object)
    (neighbors : list (list nat)) (points new : list Vector) :
  mapM (displace_point cloud_mw m anchors neighbors) points = Ok new ->
  point_loop cloud_mw m anchors neighbors points = mkOutcome new None.
Proof.
  revert new; induction points as [|p rest IH]; intros new H;
    cbn [mapM point_loop] in *.
  - inversion H; reflexivity.
  - destruct (displace_point cloud_mw m anchors neighbors p) as [q|e];
      cbn [bind] in H; [|discriminate].
    destruct (mapM _ rest) as [qs|e]; cbn [bind] in H; [|discriminate].
    inversion H; subst. rewrite (IH qs eq_refl). reflexivity.
Qed.

Lemma point_loop_first_raise (cloud_mw m : Matrix) (anchors : list Object)
    (neighbors : list (list nat)) (done new : list Vector) (p : Vector)
    (rest : list Vector) (e : exn) :
  mapM (displace_point cloud_mw m anchors neighbors) done = Ok new ->
  displace_point cloud_mw m anchors neighbors p = Raise e ->
  point_loop cloud_mw m anchors neighbors (done ++ p :: rest)
  = mkOutcome (new ++ p :: rest) (Some e).
Proof.
  revert new; induction done as [|d ds IH]; intros new H Hp;
    cbn [mapM point_loop app] in *.
  - inversion H; subst. rewrite Hp. reflexivity.
  - destruct (displace_point cloud_mw m anchors neighbors d) as [q|e'];
      cbn [bind] in H; [|discriminate].
    destruct (mapM _ ds) as [qs|e']; cbn [bind] in H; [|discriminate].
    inversion H; subst. rewrite (IH qs eq_refl Hp). reflexivity.
Qed.

Lemma point_loop_length (cloud_mw m : Matrix) (anchors : list Object)
    (neighbors : list (list nat)) (points : list Vector) :
  length (vertices_after (point_loop cloud_mw m anchors neighbors points))
  = length points.
Proof.
  induction points as [|p rest IH]; cbn [point_loop]; [reflexivity|].
  destruct (displace_point cloud_mw m anchors neighbors p); cbn; [|reflexivity].
  rewrite IH. reflexivity.
Qed.

(** X7.  The script never adds or removes a vertex, whether it ends normally or
    on an exception. *)
Theorem script_keeps_vertex_count
    (Delaunay : list Vector -> result (list nat * list nat)) (s : Scene) :
  length (vertices_after (script Delaunay s)) = length (vertices s).
Proof.
  unfold script. destruct (setup Delaunay s) as [[[m anchors] neighbors]|e];
    [apply point_loop_length | reflexivity].
Qed.

(** X8.  Once the setup has succeeded, every vertex is computed from its own old
    coordinates alone.  If no vertex raises, all are replaced; if one
    raises, the script stops there: the vertices before it keep their new
    coordinates, that vertex and those after it keep their old ones. *)
Theorem script_outcome
    (Delaunay : list Vector -> result (list nat * list nat)) (s : Scene)
    (m : Matrix) (anchors : list Object) (neighbors : list (list nat)) :
  setup Delaunay s = Ok (m, anchors, neighbors) ->
  (forall new,
     mapM (displace_point (cloud_matrix_world s) m anchors neighbors) (vertices s)
     = Ok new ->
     script Delaunay s = mkOutcome new None) /\
  (forall done p rest new e,
     vertices s = done ++ p :: rest ->
     mapM (displace_point (cloud_matrix_world s) m anchors neighbors) done = Ok new ->
     displace_point (cloud_matrix_world s) m anchors neighbors p = Raise e ->
     script Delaunay s = mkOutcome (new ++ p :: rest) (Some e)).
Proof.
  intros Hsetup. unfold script. rewrite Hsetup. split.
  - intros new H. apply point_loop_all_ok. exact H.
  - intros done p rest new e Hv Hdone Hp. rewrite Hv.
    apply point_loop_first_raise; assumption.
Qed.

Lemma setup_two_anchor_scene (points : list Vector) :
  setup failing_Delaunay (two_anchor_scene points)
  = Ok (identity, two_anchors, [[1%nat]; [0%nat]]).
Proof.
  unfold setup, two_anchor_scene. cbn [cloud_matrix_world collection].
  rewrite inverted_identity. cbn [bind].
  change (select_anchors two_anchors) with two_anchors.
  rewrite (two_neighbors failing_Delaunay anchor0 anchor1
           : build_neighbors failing_Delaunay two_anchors = _).
  reflexivity.
Qed.

Lemma setup_coincident_scene (points : list Vector) :
  setup failing_Delaunay (coincident_scene points)
  = Ok (identity, [anchor0; anchor0], [[1%nat]; [0%nat]]).
Proof.
  unfold setup, coincident_scene.
  cbn [cloud_matrix_world collection select_anchors filter parent anchor0].
  rewrite inverted_identity. cbn [bind]. rewrite two_neighbors. reflexivity.
Qed.

Lemma displace_point_coincident (p : Vector) :
  displace_point identity identity [anchor0; anchor0] [[1%nat]; [0%nat]] p
  = Raise ZeroDivisionError.
Proof.
  unfold displace_point, raw_coeffs. cbn [length seq mapM].
  rewrite cell_coeff_coincident_pair. reflexivity.
Qed.

Lemma script_outcome_witness :
  script failing_Delaunay (two_anchor_scene [mkVector 1 0 0; mkVector 1 0 0])
  = mkOutcome [mkVector 1 0 0; mkVector 1 0 0] None /\
  script failing_Delaunay (coincident_scene [mkVector 1 2 3; mkVector 4 5 6])
  = mkOutcome [mkVector 1 2 3; mkVector 4 5 6] (Some ZeroDivisionError).
Proof.
  split.
  - apply (proj1 (script_outcome failing_Delaunay
                    (two_anchor_scene [mkVector 1 0 0; mkVector 1 0 0])
                    identity two_anchors [[1%nat]; [0%nat]]
                    (setup_two_anchor_scene _))).
    cbn [two_anchor_scene vertices cloud_matrix_world mapM].
    rewrite displace_point_midpoint. reflexivity.
  - apply (proj2 (script_outcome failing_Delaunay
                    (coincident_scene [mkVector 1 2 3; mkVector 4 5 6])
                    identity [anchor0; anchor0] [[1%nat]; [0%nat]]
                    (setup_coincident_scene _))
             [] (mkVector 1 2 3) [mkVector 4 5 6] [] ZeroDivisionError).
    + reflexivity.
    + reflexivity.
    + apply displace_point_coincident.
Defined.



(** ** When the script cannot raise *)















(** ** Anchors the blending loop cannot process *)

Lemma displacement_loop_raise (cloud_mw : Matrix) (p : Vector)
    (anchors : list Object) (coeffs : list R) (k : nat) (a : Object) (e : exn)
    (len start : nat) (acc : Vector) :
  nth_error anchors k = Some a ->
  displaced_in_world cloud_mw p a = Raise e ->
  (forall j b, (j < k)%nat -> nth_error anchors j = Some b -> has_handle b) ->
  (k <= length coeffs)%nat ->
  (start <= k < start + len)%nat ->
  displacement_loop cloud_mw p anchors coeffs acc (seq start len) = Raise e.
Proof.
  intros Hk He Hbefore Hc. revert start acc; induction len as [|len IH];
    intros start acc Hr; [lia|].
  cbn [seq displacement_loop].
  destruct (Nat.eq_dec start k) as [->|Hne].
  - rewrite (getitem_Some _ _ _ Hk); cbn [bind]. rewrite He. reflexivity.
  - destruct (nth_error anchors start) as [b|] eqn:Hb.
    2:{ apply nth_error_None in Hb.
        assert ((k < length anchors)%nat) by (apply nth_error_Some; congruence). lia. }
    rewrite (getitem_Some _ _ _ Hb); cbn [bind].
    destruct (displaced_in_world_Ok cloud_mw p b) as [d Hd];
      [apply (Hbefore start b); [lia | exact Hb]|].
    rewrite Hd; cbn [bind].
    destruct (nth_error coeffs start) as [c|] eqn:Hcs;
      [|apply nth_error_None in Hcs; lia].
    rewrite (getitem_Some _ _ _ Hcs); cbn [bind].
    apply IH. lia.
Qed.

(** X12.  The blending loop visits every anchor, whatever its weight.  The first
    anchor without a child stops it with [IndexError], the first anchor
    whose world matrix cannot be inverted with [ValueError], even when the
    influence of that anchor on the point is 0. *)
Theorem blend_visits_every_anchor
    (cloud_mw : Matrix) (p : Vector) (anchors : list Object) (coeffs : list R)
    (k : nat) (a : Object) :
  nth_error anchors k = Some a ->
  (forall j b, (j < k)%nat -> nth_error anchors j = Some b -> has_handle b) ->
  length coeffs = length anchors ->
  (children a = [] -> blend cloud_mw p anchors coeffs = Raise IndexError) /\
  (children a <> [] -> determinant (matrix_world a) = 0 ->
   blend cloud_mw p anchors coeffs = Raise ValueError).
Proof.
  intros Hk Hbefore Hlen.
  assert (Hlt : (k < length anchors)%nat) by (apply nth_error_Some; congruence).
  split.
  - intros Hc. unfold blend.
    apply (displacement_loop_raise _ _ _ _ k a); auto; [|lia|lia].
    unfold displaced_in_world. rewrite Hc. reflexivity.
  - intros Hc Hd. unfold blend.
    apply (displacement_loop_raise _ _ _ _ k a); auto; [|lia|lia].
    unfold displaced_in_world, inverted.
    destruct (children a) as [|e rest]; [contradiction|].
    cbn [getitem nth_error bind].
    destruct (Req_dec_T _ 0) as [_|H]; [reflexivity | contradiction].
Qed.

Lemma blend_visits_every_anchor_witness :
  blend identity (mkVector 1 2 3)
    [anchor0; mkObject None (mkVector 9 9 9) identity []] [1; 0]
  = Raise IndexError /\
  blend identity (mkVector 1 2 3)
    [anchor0; mkObject None (mkVector 9 9 9) (mscale 0 identity) [mkChild identity]]
    [1; 0]
  = Raise ValueError.
Proof.
  split.
  - apply (proj1 (blend_visits_every_anchor identity (mkVector 1 2 3)
                    [anchor0; mkObject None (mkVector 9 9 9) identity []] [1; 0]
                    1%nat (mkObject None (mkVector 9 9 9) identity []) eq_refl
                    ltac:(intros [|j] b Hj Hb; [inversion Hb; subst;
                            apply (Forall_inv has_handle_two_anchors) | lia])
                    eq_refl)).
    reflexivity.
  - apply (proj2 (blend_visits_every_anchor identity (mkVector 1 2 3)
                    [anchor0; mkObject None (mkVector 9 9 9) (mscale 0 identity)
                                [mkChild identity]] [1; 0]
                    1%nat (mkObject None (mkVector 9 9 9) (mscale 0 identity)
                             [mkChild identity]) eq_refl
                    ltac:(intros [|j] b Hj Hb; [inversion Hb; subst;
                            apply (Forall_inv has_handle_two_anchors) | lia])
                    eq_refl)).
    + discriminate.
    + cbn [matrix_world]. unfold_matrix. ring.
Defined.

(** ** The neighbour table from the triangulation *)

Lemma row_pointers_head (start : nat) (rows : list (list nat)) :
  exists tl, row_pointers start rows = start :: tl.
Proof. destruct rows; cbn; eauto. Qed.

Lemma slice_middle (pre row post : list nat) :
  slice (pre ++ row ++ post) (length pre) (length pre + length row) = row.
Proof.
  unfold slice. rewrite skipn_app, skipn_all, Nat.sub_diag. cbn [skipn app].
  replace (length pre + length row - length pre)%nat with (length row) by lia.
  rewrite firstn_app, firstn_all, Nat.sub_diag. cbn [firstn]. apply app_nil_r.
Qed.

Lemma decode_rows (rows : list (list nat)) :
  forall pre_ptrs pre_idx : list nat,
    mapM (fun k =>
            a <- getitem (pre_ptrs ++ row_pointers (length pre_idx) rows) k ;;
            b <- getitem (pre_ptrs ++ row_pointers (length pre_idx) rows) (k + 1) ;;
            Ok (slice (pre_idx ++ concat rows) a b))
         (seq (length pre_ptrs) (length rows))
    = Ok rows.
Proof.
  induction rows as [|row rest IH]; intros pre_ptrs pre_idx; [reflexivity|].
  cbn [length seq mapM row_pointers concat].
  destruct (row_pointers_head (length pre_idx + length row) rest) as [tl Htl].
  assert (Ha : nth_error (pre_ptrs ++ length pre_idx
                            :: row_pointers (length pre_idx + length row) rest)
                 (length pre_ptrs) = Some (length pre_idx)).
  { rewrite nth_error_app2, Nat.sub_diag by lia. reflexivity. }
  assert (Hb : nth_error (pre_ptrs ++ length pre_idx
                            :: row_pointers (length pre_idx + length row) rest)
                 (length pre_ptrs + 1) = Some (length pre_idx + length row)%nat).
  { rewrite nth_error_app2 by lia.
    replace (length pre_ptrs + 1 - length pre_ptrs)%nat with 1%nat by lia.
    rewrite Htl. reflexivity. }
  rewrite (getitem_Some _ _ _ Ha); cbn [bind].
  rewrite (getitem_Some _ _ _ Hb); cbn [bind].
  rewrite slice_middle.
  specialize (IH (pre_ptrs ++ [length pre_idx]) (pre_idx ++ row)).
  rewrite !length_app in IH. cbn [length] in IH.
  rewrite <- !app_assoc in IH. cbn [app] in IH.
  replace (length pre_ptrs + 1)%nat with (S (length pre_ptrs)) in IH by lia.
  rewrite IH. reflexivity.
Qed.

Lemma build_neighbors_rows
    (Delaunay : list Vector -> result (list nat * list nat))
    (anchors : list Object) (rows : list (list nat)) :
  (DELAUNAY_MINIMUM_POINTS <= length anchors)%nat ->
  length rows = length anchors ->
  Delaunay (map location anchors) = Ok (row_pointers 0 rows, concat rows) ->
  build_neighbors Delaunay anchors = Ok rows.
Proof.
  intros Hn Hlen HD. unfold build_neighbors.
  destruct (Nat.leb_spec DELAUNAY_MINIMUM_POINTS (length anchors)) as [_|H]; [|lia].
  rewrite HD; cbn [bind fst snd]. rewrite <- Hlen.
  apply (decode_rows rows [] []).
Qed.

(** X13.  With five anchors or more, the neighbour table is decoded from the
    answer of the triangulation: when [pointers] and [indices] hold one row
    per anchor in the layout of line 49, the table is exactly those rows. *)
Theorem neighbors_decoded_from_triangulation
    (Delaunay : list Vector -> result (list nat * list nat))
    (anchors : list Object) (rows : list (list nat)) :
  (DELAUNAY_MINIMUM_POINTS <= length anchors)%nat ->
  length rows = length anchors ->
  Delaunay (map location anchors) = Ok (row_pointers 0 rows, concat rows) ->
  build_neighbors Delaunay anchors = Ok rows.
Proof.
  apply build_neighbors_rows.
Qed.

Lemma neighbors_decoded_from_triangulation_witness :
  build_neighbors
    (rows_Delaunay [[1; 2]; [0; 2; 3]; [0; 1]; [1; 4]; [3]]%nat)
    [anchor0; anchor1; anchor0; anchor1; anchor0]
  = Ok [[1; 2]; [0; 2; 3]; [0; 1]; [1; 4]; [3]]%nat.
Proof.
  apply (neighbors_decoded_from_triangulation
           (rows_Delaunay [[1; 2]; [0; 2; 3]; [0; 1]; [1; 4]; [3]]%nat)
           [anchor0; anchor1; anchor0; anchor1; anchor0]
           [[1; 2]; [0; 2; 3]; [0; 1]; [1; 4]; [3]]%nat).
  - unfold DELAUNAY_MINIMUM_POINTS. simpl. lia.
  - reflexivity.
  - reflexivity.
Defined.

(** ** The blend as a weighted sum *)








(** ** Handles that move together *)














(** ** A single anchor *)

Lemma displace_point_single (cloud_mw m : Matrix) (a : Object) (p : Vector)
    (end_ : Child) (rest : list Child) (anchor_inv : Matrix) :
  children a = end_ :: rest ->
  inverted (matrix_world a) = Ok anchor_inv ->
  displace_point cloud_mw m [a] [[]] p
  = Ok (matvec m (matvec (child_matrix_world end_)
                         (matvec (matmul anchor_inv cloud_mw) p))).
Proof.
  intros Hc Hi. unfold displace_point, raw_coeffs, cell_coeff.
  cbn [length seq mapM getitem nth_error bind membership_loop Nat.eqb boundary_loop].
  unfold normalize_coeffs. rewrite sum_cons, sum_nil.
  destruct (Req_dec_T (1 + 0) 0) as [H|_]; [lra|].
  unfold blend.
  cbn [map length seq displacement_loop getitem nth_error bind].
  unfold displaced_in_world.
  rewrite Hc. cbn [getitem nth_error bind]. rewrite Hi. cbn [bind].
  do 2 f_equal. apply Vector_ext; cbn; field.
Qed.

(** X17.  With a single anchor the cell test has nothing to test and the anchor
    has no neighbour: its weight is 1 and every vertex is carried by the
    handle alone, to
    [matrix_cloud_to_world @ (handle @ ((anchor^-1 @ cloud) @ point.co))]. *)
Theorem single_anchor_carries_every_vertex
    (Delaunay : list Vector -> result (list nat * list nat)) (s : Scene)
    (a : Object) (matrix_cloud_to_world : Matrix) (end_ : Child)
    (rest : list Child) (anchor_inv : Matrix) :
  select_anchors (collection s) = [a] ->
  inverted (cloud_matrix_world s) = Ok matrix_cloud_to_world ->
  children a = end_ :: rest ->
  inverted (matrix_world a) = Ok anchor_inv ->
  script Delaunay s
  = mkOutcome
      (map (fun p => matvec matrix_cloud_to_world
                       (matvec (child_matrix_world end_)
                          (matvec (matmul anchor_inv (cloud_matrix_world s)) p)))
           (vertices s))
      None.
Proof.
  intros Ha Hm Hc Hi. unfold script, setup. rewrite Hm, Ha. cbn [bind].
  rewrite build_neighbors_fallback by (unfold DELAUNAY_MINIMUM_POINTS; simpl; lia).
  cbn [bind]. change (map _ (seq 0 (length [a]))) with [@nil nat].
  apply point_loop_all_ok. apply mapM_pure.
  intros p _. apply (displace_point_single _ _ _ _ _ _ _ Hc Hi).
Qed.

Lemma single_anchor_carries_every_vertex_witness :
  script failing_Delaunay (mkScene identity [mkVector 1 2 3] [anchor0])
  = mkOutcome
      [matvec identity
         (matvec (Translation (mkVector 0 1 0))
            (matvec (matmul (Translation (mkVector (- 0) (- 0) (- 0))) identity)
               (mkVector 1 2 3)))]
      None.
Proof.
  apply (single_anchor_carries_every_vertex failing_Delaunay
           (mkScene identity [mkVector 1 2 3] [anchor0]) anchor0 identity
           (mkChild (Translation (mkVector 0 1 0))) []
           (Translation (mkVector (- 0) (- 0) (- 0)))).
  - reflexivity.
  - apply inverted_identity.
  - reflexivity.
  - apply (inverted_Translation (mkVector 0 0 0)).
Defined.

(** ** The falloff has no jump *)








(** ** Anchors go where their handles are *)




(** ** The script with a triangulation *)





